(** * pyrawsql: the query context of [src/pyrawsql/__init__.py]

    A shallow embedding of the class [QueryContext] (alias allocation and the
    bind-parameter registry with identity-based deduplication), followed by
    the properties of its three methods. *)

From Stdlib Require Import Ascii.
From stdpp Require Import gmap strings list fin_maps pretty.

(** ** The Python runtime, as far as the class observes it *)

(** An object reference.  Two references are the same object exactly when
    they are equal: this is what the operator [is] compares. *)
Definition ref := N.

(** A class is an object too; [type(x)] returns a reference to it, and the
    dictionary [_binds_values] hashes and compares classes by identity. *)
Definition PyType := ref.

Bind Scope N_scope with ref PyType.

(** What a heap cell holds: the class of the object and the data that the
    operator [==] compares. *)
Record PyObject := mkPyObject {
  ob_type : PyType;
  ob_data : Z;
}.

(** The heap at one moment.  Python lets a program assign to [__class__],
    so the class of an object is read from the heap of the moment. *)
Definition Heap := ref → PyObject.

Definition py_is (a b : ref) : bool := bool_decide (a = b).

Definition py_type (heap : Heap) (value : ref) : PyType := ob_type (heap value).

(** [a == b] on two objects of the heap: same class and same data. *)
Definition py_eq (heap : Heap) (a b : ref) : bool :=
  bool_decide (ob_type (heap a) = ob_type (heap b)
               ∧ ob_data (heap a) = ob_data (heap b)).

(** [str(n)] for a non-negative integer. *)
Definition py_str (n : nat) : string := pretty n.

(** A call returns a value or raises an exception, named by its class. *)
Definition exn := string.

Inductive result (A : Type) :=
| Return (a : A)
| Raise (e : exn).
Arguments Return {A} a.
Arguments Raise {A} e.

(** A [dict] keeps its keys in insertion order, and assigning to a key that
    is present replaces the value where it stands. *)
Fixpoint dict_set {V} (d : list (string * V)) (k : string) (v : V)
  : list (string * V) :=
  match d with
  | [] => [(k, v)]
  | (k', v') :: d' =>
      if decide (k' = k) then (k', v) :: d' else (k', v') :: dict_set d' k v
  end.

Fixpoint dict_get {V} (d : list (string * V)) (k : string) : option V :=
  match d with
  | [] => None
  | (k', v') :: d' => if decide (k' = k) then Some v' else dict_get d' k
  end.

Definition dict_keys {V} (d : list (string * V)) : list string := d.*1.

Definition dict_values {V} (d : list (string * V)) : list V := d.*2.

(** ** The part of SQLAlchemy the class calls *)

Module sqlalchemy.

(** [_NoArg.NO_ARG] or a boolean. *)
Inductive NoArgOr (A : Type) := NO_ARG | Arg (a : A).
Arguments NO_ARG {A}.
Arguments Arg {A} a.

(** The keyword arguments that [QueryContext.bindparam] hands over
    unchanged; [default_options] holds the defaults of its signature. *)
Record BindOptions := mkBindOptions {
  type_ : option string;
  unique : bool;
  required : NoArgOr bool;
  quote : option bool;
  callable_ : option ref;
  expanding : bool;
  isoutparam : bool;
  literal_execute : bool;
}.

Definition default_options : BindOptions :=
  {| type_ := None; unique := false; required := NO_ARG; quote := None;
     callable_ := None; expanding := false; isoutparam := false;
     literal_execute := false |}.

(** A [BindParameter] is an object of the library.  The class stores and
    returns references to such objects and never looks inside. *)
Definition BindParameter := ref.

Bind Scope N_scope with BindParameter.

End sqlalchemy.

Import sqlalchemy.

(** The interpreter at the moment of one call of [QueryContext.bindparam]:
    the heap, from which [type(value)] is read, and what the constructor
    [sqlalchemy.bindparam] does at that moment with a key, a value and the
    options: it returns a new [BindParameter] or raises.  The library is
    not part of the repository, so its behaviour is a parameter. *)
Record Runtime := mkRuntime {
  rt_heap : Heap;
  rt_bindparam : string → ref → BindOptions → result BindParameter;
}.

(** ** The class [QueryContext] *)

Record QueryContext := mkQueryContext {
  _aliases : gset string;
  _binds_values : gmap PyType (list (ref * string));
  _binds_count : nat;
  _binds : list (string * BindParameter);
}.

(** [QueryContext.__init__] *)
Definition __init__ : QueryContext :=
  {| _aliases := ∅; _binds_values := ∅; _binds_count := 0; _binds := [] |}.

(** The loop [for bind_value, bind_key in type_group] with its early
    [return bind_key]. *)
Fixpoint scan (type_group : list (ref * string)) (value : ref)
  : option string :=
  match type_group with
  | [] => None
  | (bind_value, bind_key) :: rest =>
      if py_is bind_value value then Some bind_key else scan rest value
  end.

(** [QueryContext.bindparam]: what the call returns or raises, and the
    context after it.  [type_group] is the very list that the dictionary
    holds for the class (a fresh empty one when the class is new), so
    appending to it updates the bucket.  The counter and the bucket are
    updated before the library is called: when that call raises, the
    exception leaves the method and the context keeps both updates, with
    nothing stored in [_binds]. *)
Definition bindparam (rt : Runtime) (self : QueryContext) (value : ref)
    (opts : BindOptions) : result string * QueryContext :=
  let value_type := py_type (rt_heap rt) value in
  let '(type_group, found) :=
    match _binds_values self !! value_type with
    | None => ([], None)
    | Some type_group => (type_group, scan type_group value)
    end in
  match found with
  | Some bind_key => (Return bind_key, self)
  | None =>
      let key := "b" +:+ py_str (_binds_count self) in
      let counted :=
        {| _aliases := _aliases self;
           _binds_values :=
             <[value_type := type_group ++ [(value, key)]]>
               (_binds_values self);
           _binds_count := _binds_count self + 1;
           _binds := _binds self |} in
      match rt_bindparam rt key value opts with
      | Raise e => (Raise e, counted)
      | Return bind =>
          (Return key,
           {| _aliases := _aliases counted;
              _binds_values := _binds_values counted;
              _binds_count := _binds_count counted;
              _binds := dict_set (_binds counted) key bind |})
      end
  end.

(** [QueryContext.get_bindparams] *)
Definition get_bindparams (self : QueryContext) : list BindParameter :=
  dict_values (_binds self).

(** [QueryContext.alias] *)
Definition alias (self : QueryContext) (name : string)
  : string * QueryContext :=
  let name :=
    if decide (name ∈ _aliases self)
    then name +:+ "_" +:+ py_str (size (_aliases self))
    else name in
  (name,
   {| _aliases := {[name]} ∪ _aliases self;
      _binds_values := _binds_values self;
      _binds_count := _binds_count self;
      _binds := _binds self |}).

(** *** A context over its lifetime: a sequence of method calls

    A call of [bindparam] comes with the runtime of its moment.  A caller
    that catches the exception of a call goes on with the context as the
    call left it. *)

Inductive call :=
| Bindparam (rt : Runtime) (value : ref) (opts : BindOptions)
| GetBindparams
| Alias (name : string).

Inductive ret :=
| RetKey (key : string)
| RetRaise (e : exn)
| RetBinds (binds : list BindParameter)
| RetAlias (name : string).

Definition step (self : QueryContext) (c : call) : ret * QueryContext :=
  match c with
  | Bindparam rt value opts =>
      match bindparam rt self value opts with
      | (Return key, self') => (RetKey key, self')
      | (Raise e, self') => (RetRaise e, self')
      end
  | GetBindparams => (RetBinds (get_bindparams self), self)
  | Alias name =>
      let '(name', self') := alias self name in (RetAlias name', self')
  end.

Fixpoint run (self : QueryContext) (cs : list call)
  : list ret * QueryContext :=
  match cs with
  | [] => ([], self)
  | c :: cs' =>
      let '(r, self') := step self c in
      let '(rs, self'') := run self' cs' in
      (r :: rs, self'')
  end.

(** ** The flat registry of the design notes

    The same registry without the buckets: one ordered list of all
    [(value, key)] pairs, scanned with the same identity test; the
    statements of a miss come in the order of the class. *)

Record FlatContext := mkFlatContext {
  flat_aliases : gset string;
  flat_values : list (ref * string);
  flat_count : nat;
  flat_binds : list (string * BindParameter);
}.

Definition flat_init : FlatContext :=
  {| flat_aliases := ∅; flat_values := []; flat_count := 0;
     flat_binds := [] |}.

Definition flat_bindparam (rt : Runtime) (self : FlatContext) (value : ref)
    (opts : BindOptions) : result string * FlatContext :=
  match scan (flat_values self) value with
  | Some bind_key => (Return bind_key, self)
  | None =>
      let key := "b" +:+ py_str (flat_count self) in
      let counted :=
        {| flat_aliases := flat_aliases self;
           flat_values := flat_values self ++ [(value, key)];
           flat_count := flat_count self + 1;
           flat_binds := flat_binds self |} in
      match rt_bindparam rt key value opts with
      | Raise e => (Raise e, counted)
      | Return bind =>
          (Return key,
           {| flat_aliases := flat_aliases counted;
              flat_values := flat_values counted;
              flat_count := flat_count counted;
              flat_binds := dict_set (flat_binds counted) key bind |})
      end
  end.

Definition flat_get_bindparams (self : FlatContext) : list BindParameter :=
  dict_values (flat_binds self).

Definition flat_alias (self : FlatContext) (name : string)
  : string * FlatContext :=
  let name :=
    if decide (name ∈ flat_aliases self)
    then name +:+ "_" +:+ py_str (size (flat_aliases self))
    else name in
  (name,
   {| flat_aliases := {[name]} ∪ flat_aliases self;
      flat_values := flat_values self;
      flat_count := flat_count self;
      flat_binds := flat_binds self |}).

Definition flat_step (self : FlatContext) (c : call) : ret * FlatContext :=
  match c with
  | Bindparam rt value opts =>
      match flat_bindparam rt self value opts with
      | (Return key, self') => (RetKey key, self')
      | (Raise e, self') => (RetRaise e, self')
      end
  | GetBindparams => (RetBinds (flat_get_bindparams self), self)
  | Alias name =>
      let '(name', self') := flat_alias self name in (RetAlias name', self')
  end.

Fixpoint flat_run (self : FlatContext) (cs : list call)
  : list ret * FlatContext :=
  match cs with
  | [] => ([], self)
  | c :: cs' =>
      let '(r, self') := flat_step self c in
      let '(rs, self'') := flat_run self' cs' in
      (r :: rs, self'')
  end.

(** ** Vocabulary of the statements *)

(** The key of the [n]-th registration. *)
Definition key_of (n : nat) : string := "b" +:+ py_str n.

(** The values passed to [bindparam] in a sequence of calls, in order. *)
Definition bound_values (cs : list call) : list ref :=
  omap (λ c, match c with Bindparam _ v _ => Some v | _ => None end) cs.

(** The same values, each with the class it has at its call. *)
Definition bound_pairs (cs : list call) : list (ref * PyType) :=
  omap (λ c, match c with
             | Bindparam rt v _ => Some (v, py_type (rt_heap rt) v)
             | _ => None
             end) cs.

(** A call of [bindparam] that finds nothing to reuse: runtime, value and
    options of the call. *)
Record registration := mkRegistration {
  reg_rt : Runtime;
  reg_value : ref;
  reg_opts : BindOptions;
}.

Definition reg_class (r : registration) : PyType :=
  py_type (rt_heap (reg_rt r)) (reg_value r).

Definition reg_pair (r : registration) : ref * PyType :=
  (reg_value r, reg_class r).

(** What the library answers to the registration that mints key [n]. *)
Definition reg_result (n : nat) (r : registration) : result BindParameter :=
  rt_bindparam (reg_rt r) (key_of n) (reg_value r) (reg_opts r).

(** The calls of [cs] that pass [bindparam] an object which, with the class
    it has at the call, is neither in [seen] nor passed by an earlier call
    of [cs]: the cache misses, in call order. *)
Fixpoint registrations (seen : list (ref * PyType)) (cs : list call)
  : list registration :=
  match cs with
  | [] => []
  | Bindparam rt v o :: cs' =>
      if decide ((v, py_type (rt_heap rt) v) ∈ seen)
      then registrations seen cs'
      else mkRegistration rt v o
           :: registrations (seen ++ [(v, py_type (rt_heap rt) v)]) cs'
  | _ :: cs' => registrations seen cs'
  end.

(** The results of exactly those calls, in call order. *)
Fixpoint miss_results (seen : list (ref * PyType)) (cs : list call)
    (rs : list ret) : list ret :=
  match cs, rs with
  | Bindparam rt v _ :: cs', r :: rs' =>
      if decide ((v, py_type (rt_heap rt) v) ∈ seen)
      then miss_results seen cs' rs'
      else r :: miss_results (seen ++ [(v, py_type (rt_heap rt) v)]) cs' rs'
  | _ :: cs', _ :: rs' => miss_results seen cs' rs'
  | _, _ => []
  end.

(** The keys returned by the calls of [bindparam]. *)
Definition returned_keys (rs : list ret) : list string :=
  omap (λ r, match r with RetKey k => Some k | _ => None end) rs.

(** No call of the sequence has raised. *)
Definition no_raise (rs : list ret) : Prop :=
  Forall (λ r, ∀ e, r ≠ RetRaise e) rs.

(** Every object has, at each call of [bindparam] that passes it, the class
    that [tau] gives it: no object changes its class between two of its
    calls. *)
Definition classes_fixed (tau : ref → PyType) (cs : list call) : Prop :=
  Forall (λ c, match c with
               | Bindparam rt v _ => py_type (rt_heap rt) v = tau v
               | _ => True
               end) cs.

(** The strings returned by the calls of [alias]. *)
Definition returned_aliases (rs : list ret) : list string :=
  omap (λ r, match r with RetAlias a => Some a | _ => None end) rs.

(** The candidate names passed to [alias] in a sequence of calls. *)
Definition alias_candidates (cs : list call) : list string :=
  omap (λ c, match c with Alias name => Some name | _ => None end) cs.

Definition is_bindparam (c : call) : bool :=
  match c with Bindparam _ _ _ => true | _ => false end.

Definition is_alias (c : call) : bool :=
  match c with Alias _ => true | _ => false end.

(** [ch in s] for a character [ch]. *)
Fixpoint contains_char (ch : ascii) (s : string) : bool :=
  match s with
  | EmptyString => false
  | String c s' => bool_decide (c = ch) || contains_char ch s'
  end.

(** The candidate with the suffix that [alias] builds on a collision. *)
Definition suffixed (name : string) (k : nat) : string :=
  name +:+ "_" +:+ py_str k.

(** The shape of an alias set built from candidates without underscore:
    a member is such a candidate, or one with the suffix of a size that the
    set had before it got its present size. *)
Definition alias_shaped (A : gset string) : Prop :=
  ∀ x, x ∈ A →
    contains_char "_"%char x = false
    ∨ ∃ m j, x = suffixed m j ∧ contains_char "_"%char m = false ∧ j < size A.

(** All keys stored in the type-grouped lists of a context. *)
Definition bucket_keys (self : QueryContext) : list string :=
  map_to_list (_binds_values self) ≫= λ bucket, bucket.2.*2.

(** The data-model invariant on [_binds]: its keys are the keys of the
    type-grouped lists, each exactly once. *)
Definition binds_keys_inv (self : QueryContext) : Prop :=
  dict_keys (_binds self) ≡ₚ bucket_keys self
  ∧ NoDup (dict_keys (_binds self)).

(** What a context holds after the registrations [log], the first of which
    mints key [n]: the list filed under a class, the stored parameters and
    the exported ones. *)
Fixpoint group_from (n : nat) (ty : PyType) (log : list registration)
  : list (ref * string) :=
  match log with
  | [] => []
  | r :: log' =>
      (if decide (reg_class r = ty) then [(reg_value r, key_of n)] else [])
      ++ group_from (S n) ty log'
  end.

Fixpoint stored_from (n : nat) (log : list registration)
  : list (string * BindParameter) :=
  match log with
  | [] => []
  | r :: log' =>
      match reg_result n r with
      | Return bind => [(key_of n, bind)]
      | Raise _ => []
      end ++ stored_from (S n) log'
  end.

Definition exported (log : list registration) : list BindParameter :=
  dict_values (stored_from 0 log).

(** What the [n]-th registration returns to its caller. *)
Definition reg_ret (n : nat) (r : registration) : ret :=
  match reg_result n r with
  | Return _ => RetKey (key_of n)
  | Raise e => RetRaise e
  end.

Record ctx_inv (self : QueryContext) (log : list registration)
  : Prop := mk_ctx_inv {
  inv_count : _binds_count self = length log;
  inv_binds : _binds self = stored_from 0 log;
  inv_nodup : NoDup (reg_pair <$> log);
  inv_groups : ∀ ty,
    default [] (_binds_values self !! ty) = group_from 0 ty log;
}.

(** The bucketed context and the flat one hold the same registry, the
    classes of the objects being those of [tau]. *)
Record sim (tau : ref → PyType) (self : QueryContext) (flat : FlatContext)
  : Prop := mk_sim {
  sim_aliases : _aliases self = flat_aliases flat;
  sim_count : _binds_count self = flat_count flat;
  sim_binds : _binds self = flat_binds flat;
  sim_groups : ∀ ty,
    default [] (_binds_values self !! ty)
    = filter (λ e, tau e.1 = ty) (flat_values flat);
}.

(** *** Runtimes for the examples *)

(** Objects 1 and 2 are two integers 42, object 3 is a string, every other
    object an integer 0. *)
Definition heap0 : Heap := λ r,
  match r with
  | 1%N | 2%N => mkPyObject 100 42
  | 3%N => mkPyObject 101 42
  | _ => mkPyObject 100 0
  end.

(** The heap after [__class__] of object 1 was set to the class of
    object 3. *)
Definition heap1 : Heap := λ r,
  match r with
  | 1%N => mkPyObject 101 42
  | _ => heap0 r
  end.

(** A library that refuses object 9 as a literal value and otherwise
    returns an object that tells the value and the flag [unique]. *)
Definition lib0 (key : string) (value : ref) (opts : BindOptions)
  : result BindParameter :=
  if bool_decide (value = 9%N) then Raise "ArgumentError"
  else Return ((if unique opts then 2000 else 1000) + value)%N.

Definition rt0 : Runtime := {| rt_heap := heap0; rt_bindparam := lib0 |}.

Definition rt1 : Runtime := {| rt_heap := heap1; rt_bindparam := lib0 |}.

(** The classes of the objects of [heap0]. *)
Definition tau0 (v : ref) : PyType := py_type heap0 v.

(** ** Auxiliary facts *)

Implicit Types (log : list registration) (cs : list call)
  (rs : list ret) (self : QueryContext) (v a b : ref)
  (o opts : BindOptions) (seen : list (ref * PyType)) (rt : Runtime)
  (ty : PyType) (r : registration).

Lemma key_of_inj n m : key_of n = key_of m → n = m.
Proof.
  unfold key_of, py_str. simpl. intros [= H]. by apply pretty_nat_inj.
Qed.

Section Dict.

Context {V : Type}.
Implicit Types (d : list (string * V)) (k : string) (x : V).

Lemma dict_set_fresh d k x : k ∉ dict_keys d → dict_set d k x = d ++ [(k, x)].
Proof.
  unfold dict_keys. induction d as [|[k' v'] d IH]; simpl; [done|].
  intros Hk. apply not_elem_of_cons in Hk as [Hne Hk].
  case_decide; [congruence|]. by rewrite IH.
Qed.

Lemma dict_get_app d d' k x :
  dict_get d k = Some x → dict_get (d ++ d') k = Some x.
Proof.
  induction d as [|[k' v'] d IH]; simpl; [done|]. by case_decide.
Qed.

Lemma dict_get_None d k : k ∉ dict_keys d → dict_get d k = None.
Proof.
  unfold dict_keys. induction d as [|[k' v'] d IH]; simpl; [done|].
  intros [Hne Hk]%not_elem_of_cons. rewrite decide_False by done. auto.
Qed.

End Dict.

(** *** The lists that a log of registrations leaves in a context *)

Lemma group_from_app n ty log1 log2 :
  group_from n ty (log1 ++ log2)
  = group_from n ty log1 ++ group_from (n + length log1) ty log2.
Proof.
  revert n. induction log1 as [|r log1 IH]; intros n; simpl.
  - by rewrite Nat.add_0_r.
  - rewrite IH, <-app_assoc. by rewrite Nat.add_succ_r.
Qed.

Lemma stored_from_app n log1 log2 :
  stored_from n (log1 ++ log2)
  = stored_from n log1 ++ stored_from (n + length log1) log2.
Proof.
  revert n. induction log1 as [|r log1 IH]; intros n; simpl.
  - by rewrite Nat.add_0_r.
  - rewrite IH, <-app_assoc. by rewrite Nat.add_succ_r.
Qed.

Lemma stored_keys n log k :
  k ∈ dict_keys (stored_from n log) →
  ∃ i, i < length log ∧ k = key_of (n + i).
Proof.
  unfold dict_keys. revert n.
  induction log as [|r log IH]; intros n; simpl.
  - by intros ?%elem_of_nil.
  - rewrite fmap_app, elem_of_app. intros [Hk|Hk].
    + exists 0. split; [lia|]. rewrite Nat.add_0_r.
      destruct (reg_result n r); simpl in Hk.
      * by apply list_elem_of_singleton in Hk.
      * by apply elem_of_nil in Hk.
    + apply IH in Hk as (i & Hi & ->). exists (S i). split; [lia|].
      by rewrite Nat.add_succ_r.
Qed.

Lemma stored_keys_NoDup n log : NoDup (dict_keys (stored_from n log)).
Proof.
  revert n. induction log as [|r log IH]; intros n; simpl; [constructor|].
  unfold dict_keys. rewrite fmap_app. apply NoDup_app.
  split; [|split; [|apply IH]].
  - destruct (reg_result n r); simpl; [apply NoDup_singleton|constructor].
  - intros k Hk Hin. apply stored_keys in Hin as (i & _ & ->).
    destruct (reg_result n r); simpl in Hk.
    + apply list_elem_of_singleton, key_of_inj in Hk. lia.
    + by apply elem_of_nil in Hk.
Qed.

Lemma stored_key_fresh log :
  key_of (length log) ∉ dict_keys (stored_from 0 log).
Proof. intros (i & Hi & Hk%key_of_inj)%stored_keys. simpl in Hk. lia. Qed.

Lemma stored_lookup n log i r bind :
  log !! i = Some r → reg_result (n + i) r = Return bind →
  dict_get (stored_from n log) (key_of (n + i)) = Some bind.
Proof.
  revert n i. induction log as [|r0 log IH]; intros n i Hi Hres; [done|].
  destruct i as [|i]; simpl in Hi.
  - injection Hi as ->. rewrite Nat.add_0_r in *. simpl. rewrite Hres.
    simpl. by rewrite decide_True.
  - rewrite Nat.add_succ_r in *. simpl.
    destruct (reg_result n r0); simpl.
    + rewrite decide_False; [by apply (IH (S n))|].
      intros Hk%key_of_inj. lia.
    + by apply (IH (S n)).
Qed.

Lemma pair_lookup log v ty :
  (v, ty) ∈ reg_pair <$> log →
  ∃ n r, log !! n = Some r ∧ reg_value r = v ∧ reg_class r = ty.
Proof.
  intros (r & [= -> ->] & Hin)%list_elem_of_fmap.
  apply list_elem_of_lookup_1 in Hin as [n Hn]. by exists n, r.
Qed.

Lemma pair_elem log n r : log !! n = Some r → reg_pair r ∈ reg_pair <$> log.
Proof.
  intros Hn. apply list_elem_of_fmap_2. by eapply list_elem_of_lookup_2.
Qed.

Lemma scan_group_Some n ty log i r :
  NoDup (reg_pair <$> log) → log !! i = Some r → reg_class r = ty →
  scan (group_from n ty log) (reg_value r) = Some (key_of (n + i)).
Proof.
  revert n i. induction log as [|r0 log IH]; intros n i Hnd Hi Hty; [done|].
  rewrite fmap_cons in Hnd. apply NoDup_cons in Hnd as [Hr0 Hnd].
  destruct i as [|i]; simpl in Hi.
  - injection Hi as ->. simpl. rewrite decide_True by done. simpl.
    unfold py_is. rewrite bool_decide_eq_true_2 by done.
    by rewrite Nat.add_0_r.
  - rewrite Nat.add_succ_r. simpl. case_decide as Hty0; simpl.
    + unfold py_is. rewrite bool_decide_eq_false_2; [by apply (IH (S n))|].
      intros Hv. apply Hr0. replace (reg_pair r0) with (reg_pair r).
      * by eapply pair_elem.
      * unfold reg_pair. congruence.
    + by apply (IH (S n)).
Qed.

Lemma scan_group_None n ty log v :
  (v, ty) ∉ reg_pair <$> log → scan (group_from n ty log) v = None.
Proof.
  revert n. induction log as [|r0 log IH]; intros n Hv; [done|].
  rewrite fmap_cons in Hv. apply not_elem_of_cons in Hv as [Hne Hv].
  simpl. case_decide as Hty0; simpl; [|by apply IH].
  unfold py_is. rewrite bool_decide_eq_false_2; [by apply IH|].
  intros Hv0. apply Hne. unfold reg_pair. congruence.
Qed.



(** *** One call of [bindparam] *)

Lemma bindparam_unfold rt self value opts :
  bindparam rt self value opts =
    let value_type := py_type (rt_heap rt) value in
    let type_group := default [] (_binds_values self !! value_type) in
    match scan type_group value with
    | Some bind_key => (Return bind_key, self)
    | None =>
        let key := key_of (_binds_count self) in
        let groups :=
          <[value_type := type_group ++ [(value, key)]]>
            (_binds_values self) in
        match rt_bindparam rt key value opts with
        | Raise e =>
            (Raise e,
             {| _aliases := _aliases self; _binds_values := groups;
                _binds_count := _binds_count self + 1;
                _binds := _binds self |})
        | Return bind =>
            (Return key,
             {| _aliases := _aliases self; _binds_values := groups;
                _binds_count := _binds_count self + 1;
                _binds := dict_set (_binds self) key bind |})
        end
    end.
Proof.
  unfold bindparam.
  by destruct (_binds_values self !! py_type (rt_heap rt) value).
Qed.

Lemma init_inv : ctx_inv __init__ [].
Proof. split; [done|done|constructor|]. intros ty. simpl. by rewrite lookup_empty. Qed.

(** An object registered under its present class is found again, and the
    context is left as it is. *)
Lemma bindparam_hit self log n r rt opts :
  ctx_inv self log → log !! n = Some r →
  reg_class r = py_type (rt_heap rt) (reg_value r) →
  bindparam rt self (reg_value r) opts = (Return (key_of n), self).
Proof.
  intros [_ _ Hnd Hgrp] Hn Hty. rewrite bindparam_unfold. simpl.
  rewrite Hgrp. by rewrite (scan_group_Some 0 _ log n r).
Qed.

(** An object that is not registered under its present class takes the
    next key and a place at the end of the log, whatever the library
    does. *)
Lemma bindparam_miss self log rt v opts :
  ctx_inv self log → (v, py_type (rt_heap rt) v) ∉ reg_pair <$> log →
  ∃ self',
    bindparam rt self v opts
    = (match reg_result (length log) (mkRegistration rt v opts) with
       | Return _ => Return (key_of (length log))
       | Raise e => Raise e
       end, self')
    ∧ _aliases self' = _aliases self
    ∧ _binds_count self' = _binds_count self + 1
    ∧ _binds self'
      = _binds self ++ stored_from (length log) [mkRegistration rt v opts]
    ∧ _binds_values self' =
        <[py_type (rt_heap rt) v :=
            default [] (_binds_values self !! py_type (rt_heap rt) v)
            ++ [(v, key_of (length log))]]> (_binds_values self)
    ∧ ctx_inv self' (log ++ [mkRegistration rt v opts]).
Proof.
  intros [Hcnt Hbinds Hnd Hgrp] Hv. rewrite bindparam_unfold. simpl.
  rewrite Hgrp, (scan_group_None 0 _ log v Hv), Hcnt.
  unfold reg_result. simpl.
  assert (NoDup (reg_pair <$> log ++ [mkRegistration rt v opts])) as Hnd'.
  { rewrite fmap_app. apply NoDup_app. split; [done|]. split.
    - by intros x Hx ->%list_elem_of_singleton.
    - apply NoDup_singleton. }
  assert (∀ ty,
    default []
      (<[py_type (rt_heap rt) v :=
           group_from 0 (py_type (rt_heap rt) v) log
           ++ [(v, key_of (length log))]]> (_binds_values self) !! ty)
    = group_from 0 ty (log ++ [mkRegistration rt v opts])) as Hgrp'.
  { intros ty. rewrite group_from_app. simpl. unfold reg_class. simpl.
    destruct (decide (py_type (rt_heap rt) v = ty)) as [<-|Hne].
    - rewrite lookup_insert_eq. simpl. by rewrite ?app_nil_r.
    - rewrite lookup_insert_ne by done. by rewrite Hgrp, ?app_nil_r. }
  destruct (rt_bindparam rt (key_of (length log)) v opts) as [bind|e]
    eqn:Hlib; eexists; (split; [done|]); simpl;
    (split; [done|]); (split; [done|]); rewrite ?app_nil_r.
  - assert (dict_set (_binds self) (key_of (length log)) bind
            = _binds self ++ [(key_of (length log), bind)]) as Hset.
    { apply dict_set_fresh. rewrite Hbinds. apply stored_key_fresh. }
    split; [done|]. split; [done|]. split; simpl; try done.
    + rewrite length_app. simpl. lia.
    + rewrite Hset, Hbinds, stored_from_app. simpl.
      unfold reg_result. simpl. by rewrite Hlib.
  - split; [done|]. split; [done|]. split; simpl; try done.
    + rewrite length_app. simpl. lia.
    + rewrite Hbinds, stored_from_app. simpl.
      unfold reg_result. simpl. by rewrite Hlib, !app_nil_r.
Qed.

(** *** Sequences of calls *)

Lemma registrations_cons seen c cs :
  registrations seen (c :: cs)
  = registrations seen [c]
    ++ registrations (seen ++ (reg_pair <$> registrations seen [c])) cs.
Proof.
  destruct c as [rt v o| |]; simpl; rewrite ?app_nil_r; try done.
  case_decide; simpl; by rewrite ?app_nil_r.
Qed.

Lemma registrations_app seen cs1 cs2 :
  registrations seen (cs1 ++ cs2)
  = registrations seen cs1
    ++ registrations (seen ++ (reg_pair <$> registrations seen cs1)) cs2.
Proof.
  revert seen. induction cs1 as [|c cs1 IH]; intros seen.
  - simpl. by rewrite app_nil_r.
  - rewrite <-app_comm_cons, registrations_cons, IH.
    rewrite (registrations_cons seen c cs1).
    by rewrite fmap_app, !app_assoc.
Qed.

(** The registrations cover [seen] and the pairs bound by the calls. *)
Lemma registrations_elem seen cs p :
  p ∈ seen ++ (reg_pair <$> registrations seen cs)
  ↔ p ∈ seen ∨ p ∈ bound_pairs cs.
Proof.
  revert seen. induction cs as [|c cs IH]; intros seen.
  - simpl. rewrite app_nil_r. unfold bound_pairs. simpl.
    rewrite elem_of_nil. tauto.
  - rewrite registrations_cons, fmap_app, app_assoc, IH, elem_of_app.
    destruct c as [rt w o| |]; unfold bound_pairs; simpl;
      fold (bound_pairs cs); rewrite ?fmap_nil, ?elem_of_nil; [|tauto..].
    rewrite elem_of_cons. case_decide as Hw; simpl.
    + rewrite elem_of_nil. split; [tauto|]. intros [?|[->|?]]; tauto.
    + rewrite list_elem_of_singleton. unfold reg_pair, reg_class. simpl.
      tauto.
Qed.

Lemma registrations_init_elem cs p :
  p ∈ reg_pair <$> registrations [] cs ↔ p ∈ bound_pairs cs.
Proof.
  rewrite <-(app_nil_l (reg_pair <$> registrations [] cs)).
  rewrite registrations_elem, elem_of_nil. tauto.
Qed.

Lemma registrations_NoDup seen cs :
  NoDup seen → NoDup (seen ++ (reg_pair <$> registrations seen cs)).
Proof.
  revert seen. induction cs as [|c cs IH]; intros seen Hnd.
  - simpl. by rewrite app_nil_r.
  - rewrite registrations_cons, fmap_app, app_assoc. apply IH.
    destruct c as [rt w o| |]; simpl; rewrite ?app_nil_r; try done.
    case_decide as Hw; simpl; rewrite ?app_nil_r; [done|].
    apply NoDup_app. split; [done|]. split; [|apply NoDup_singleton].
    by intros x Hx ->%list_elem_of_singleton.
Qed.

(** A registration is one of the calls. *)
Lemma registrations_call seen cs r :
  r ∈ registrations seen cs →
  Bindparam (reg_rt r) (reg_value r) (reg_opts r) ∈ cs.
Proof.
  revert seen. induction cs as [|c cs IH]; intros seen; simpl.
  - by intros ?%elem_of_nil.
  - destruct c as [rt w o| |]; [|right; eauto..].
    case_decide; [right; eauto|].
    intros [->|Hr]%elem_of_cons; [by left|right; eauto].
Qed.

Lemma run_cons self c cs :
  run self (c :: cs)
  = ((step self c).1 :: (run (step self c).2 cs).1,
     (run (step self c).2 cs).2).
Proof.
  simpl. destruct (step self c) as [r self']. simpl.
  by destruct (run self' cs).
Qed.

Lemma run_app self cs1 cs2 :
  run self (cs1 ++ cs2)
  = ((run self cs1).1 ++ (run (run self cs1).2 cs2).1,
     (run (run self cs1).2 cs2).2).
Proof.
  revert self. induction cs1 as [|c cs1 IH]; intros self.
  - simpl. by destruct (run self cs2).
  - rewrite <-app_comm_cons, !run_cons, IH. by simpl.
Qed.

Lemma run_length self cs : length (run self cs).1 = length cs.
Proof.
  revert self. induction cs as [|c cs IH]; intros self; [done|].
  rewrite run_cons. simpl. by rewrite IH.
Qed.

(** The results before the [i]-th call are those of the first [i] calls
    alone, and the [i]-th result is that of one step from the context they
    leave. *)
Lemma run_split self cs i c :
  cs !! i = Some c →
  take i (run self cs).1 = (run self (take i cs)).1
  ∧ (run self cs).1 !! i = Some (step (run self (take i cs)).2 c).1.
Proof.
  intros Hi. pose proof (lookup_lt_Some _ _ _ Hi) as Hlt.
  rewrite <-(take_drop_middle cs i c Hi) at 1 3.
  rewrite run_app, run_cons. simpl.
  assert (length (run self (take i cs)).1 = i) as Hlen.
  { rewrite run_length, length_take. lia. }
  split.
  - by rewrite take_app_length'.
  - by rewrite list_lookup_middle.
Qed.

Lemma ctx_inv_alias self log name :
  ctx_inv self log → ctx_inv (alias self name).2 log.
Proof. by intros [? ? ? ?]. Qed.

Lemma step_bind_hit self log n r rt opts :
  ctx_inv self log → log !! n = Some r →
  reg_class r = py_type (rt_heap rt) (reg_value r) →
  step self (Bindparam rt (reg_value r) opts) = (RetKey (key_of n), self).
Proof.
  intros Hinv Hn Hty. simpl.
  by rewrite (bindparam_hit self log n r rt opts).
Qed.

Lemma step_bind_miss self log rt v opts :
  ctx_inv self log → (v, py_type (rt_heap rt) v) ∉ reg_pair <$> log →
  ∃ self',
    step self (Bindparam rt v opts)
    = (reg_ret (length log) (mkRegistration rt v opts), self')
    ∧ _aliases self' = _aliases self
    ∧ _binds_count self' = _binds_count self + 1
    ∧ _binds self'
      = _binds self ++ stored_from (length log) [mkRegistration rt v opts]
    ∧ _binds_values self' =
        <[py_type (rt_heap rt) v :=
            default [] (_binds_values self !! py_type (rt_heap rt) v)
            ++ [(v, key_of (length log))]]> (_binds_values self)
    ∧ ctx_inv self' (log ++ [mkRegistration rt v opts]).
Proof.
  intros Hinv Hv.
  destruct (bindparam_miss self log rt v opts Hinv Hv)
    as (self' & Hb & Hrest).
  exists self'. split; [|done]. simpl. rewrite Hb. unfold reg_ret.
  by destruct (reg_result (length log) (mkRegistration rt v opts)).
Qed.

Lemma step_inv self log c :
  ctx_inv self log →
  ctx_inv (step self c).2 (log ++ registrations (reg_pair <$> log) [c]).
Proof.
  intros Hinv. destruct c as [rt v opts| |name].
  - cbn [registrations]. case_decide as Hv.
    + rewrite app_nil_r.
      destruct (pair_lookup log _ _ Hv) as (n & r & Hn & <- & Hty).
      by rewrite (step_bind_hit self log n r rt opts).
    + destruct (step_bind_miss self log rt v opts Hinv Hv)
        as (self' & -> & _ & _ & _ & _ & ?).
      done.
  - simpl. by rewrite app_nil_r.
  - cbn [registrations]. rewrite app_nil_r.
    apply (ctx_inv_alias self log name) in Hinv. simpl in *. done.
Qed.

Lemma run_inv cs : ∀ self log,
  ctx_inv self log →
  ctx_inv (run self cs).2 (log ++ registrations (reg_pair <$> log) cs).
Proof.
  induction cs as [|c cs IH]; intros self log Hinv.
  - simpl. by rewrite app_nil_r.
  - rewrite run_cons, registrations_cons, app_assoc. simpl.
    rewrite <-fmap_app. apply IH. by apply step_inv.
Qed.

Lemma run_init_inv cs : ctx_inv (run __init__ cs).2 (registrations [] cs).
Proof. apply (run_inv cs __init__ []), init_inv. Qed.

(** What the [i]-th call returns when it is a call of [bindparam]: the
    key of the registration of its object under its present class, which
    an earlier call has made, or which this call makes and the library
    may refuse. *)
Lemma run_bind_result cs i rt v opts :
  cs !! i = Some (Bindparam rt v opts) →
  ∃ n r,
    registrations [] cs !! n = Some r
    ∧ reg_value r = v
    ∧ reg_class r = py_type (rt_heap rt) v
    ∧ (((v, py_type (rt_heap rt) v) ∈ bound_pairs (take i cs)
        ∧ n < length (registrations [] (take i cs))
        ∧ (run __init__ cs).1 !! i = Some (RetKey (key_of n)))
       ∨ (((v, py_type (rt_heap rt) v) ∉ bound_pairs (take i cs))
          ∧ n = length (registrations [] (take i cs))
          ∧ r = mkRegistration rt v opts
          ∧ (run __init__ cs).1 !! i = Some (reg_ret n r))).
Proof.
  intros Hi.
  destruct (run_split __init__ cs i _ Hi) as [_ ->].
  pose proof (run_init_inv (take i cs)) as Hinv.
  pose proof (registrations_app [] (take i cs)
                (Bindparam rt v opts :: drop (S i) cs)) as Hreg.
  rewrite (take_drop_middle cs i _ Hi) in Hreg. simpl in Hreg.
  set (log := registrations [] (take i cs)) in *.
  setoid_rewrite <-(registrations_init_elem (take i cs)). fold log.
  destruct (decide ((v, py_type (rt_heap rt) v) ∈ reg_pair <$> log))
    as [Hv|Hv].
  - destruct (pair_lookup log _ _ Hv) as (n & r & Hn & <- & Hty).
    exists n, r. rewrite Hreg. split; [by apply lookup_app_l_Some|].
    split; [done|]. split; [done|]. left. split; [done|].
    split; [by eapply lookup_lt_Some|].
    by rewrite (step_bind_hit _ log n r rt opts).
  - exists (length log), (mkRegistration rt v opts). rewrite Hreg.
    split; [by apply list_lookup_middle|].
    split; [done|]. split; [done|]. right. split; [done|].
    split; [done|]. split; [done|].
    by destruct (step_bind_miss _ log rt v opts Hinv Hv) as (self' & -> & _).
Qed.

Lemma reg_ret_key n r key : reg_ret n r = RetKey key → key = key_of n.
Proof. unfold reg_ret. destruct (reg_result n r); by intros [= <-]. Qed.

Lemma reg_ret_result n r key :
  reg_ret n r = RetKey key → ∃ bind, reg_result n r = Return bind.
Proof. unfold reg_ret. destruct (reg_result n r); [by eexists|done]. Qed.

Lemma bound_pairs_take cs i j rt v opts :
  cs !! i = Some (Bindparam rt v opts) → i < j →
  (v, py_type (rt_heap rt) v) ∈ bound_pairs (take j cs).
Proof.
  intros Hi Hij. apply list_elem_of_omap. exists (Bindparam rt v opts).
  split; [|done]. apply list_elem_of_lookup_2 with i.
  by rewrite lookup_take_lt.
Qed.

Lemma registrations_init_NoDup cs : NoDup (reg_pair <$> registrations [] cs).
Proof. apply (registrations_NoDup [] cs). constructor. Qed.

(** Two registrations of one object under one class are one. *)
Lemma registrations_same cs n m r r' :
  registrations [] cs !! n = Some r → registrations [] cs !! m = Some r' →
  reg_value r = reg_value r' → reg_class r = reg_class r' → n = m.
Proof.
  intros Hn Hm Hv Hty.
  apply (NoDup_lookup _ n m (reg_pair r) (registrations_init_NoDup cs)).
  - by rewrite list_lookup_fmap, Hn.
  - rewrite list_lookup_fmap, Hm. simpl. unfold reg_pair. congruence.
Qed.

(** ** Identity-based deduplication *)

(** C1, as the code has it: two calls of [bindparam] with the same object
    ([a is b]), the object having the same class at both calls, return
    the same key whenever both return; and once the earlier one has
    returned a key, the later one returns it too. *)
Theorem bindparam_same_object_same_class_same_key
    cs i j rta rtb a b opts1 opts2 :
  cs !! i = Some (Bindparam rta a opts1) →
  cs !! j = Some (Bindparam rtb b opts2) →
  py_is a b = true →
  py_type (rt_heap rta) a = py_type (rt_heap rtb) b →
  (∀ key1 key2,
     (run __init__ cs).1 !! i = Some (RetKey key1) →
     (run __init__ cs).1 !! j = Some (RetKey key2) →
     key1 = key2)
  ∧ (i ≤ j → ∀ key,
     (run __init__ cs).1 !! i = Some (RetKey key) →
     (run __init__ cs).1 !! j = Some (RetKey key)).
Proof.
  intros Hi Hj Hab Hty. apply bool_decide_eq_true_1 in Hab as <-.
  destruct (run_bind_result cs i rta a opts1 Hi)
    as (n & r & Hn & Hv & Hc & Hri).
  destruct (run_bind_result cs j rtb a opts2 Hj)
    as (m & r' & Hm & Hv' & Hc' & Hrj).
  assert (n = m) as <-.
  { apply (registrations_same cs n m r r' Hn Hm); congruence. }
  assert (∀ key, (run __init__ cs).1 !! i = Some (RetKey key) →
                 key = key_of n) as Hki.
  { intros key Hk. destruct Hri as [(_ & _ & Hr)|(_ & _ & _ & Hr)].
    - congruence.
    - apply (reg_ret_key n r). congruence. }
  assert (∀ key, (run __init__ cs).1 !! j = Some (RetKey key) →
                 key = key_of n) as Hkj.
  { intros key Hk. destruct Hrj as [(_ & _ & Hr)|(_ & _ & _ & Hr)].
    - congruence.
    - apply (reg_ret_key n r'). congruence. }
  split.
  - intros key1 key2 H1 H2. rewrite (Hki _ H1), (Hkj _ H2). done.
  - intros Hij key Hk. rewrite (Hki _ Hk).
    destruct Hrj as [(_ & _ & Hr)|(Hnew & _ & _ & Hr)]; [done|].
    destruct (decide (i = j)) as [->|Hne].
    + rewrite Hk in Hr. injection Hr as Hr. symmetry in Hr.
      rewrite Hk. by rewrite (reg_ret_key _ _ _ Hr).
    + exfalso. apply Hnew. rewrite <-Hty.
      apply (bound_pairs_take cs i j rta a opts1 Hi). lia.
Qed.

Lemma bindparam_same_object_same_class_same_key_witness :
  (run __init__
     [Bindparam rt0 1 default_options; Alias "u";
      Bindparam rt0 2 default_options;
      Bindparam rt0 1 (mkBindOptions None true NO_ARG None None
                         false false false)]
  ).1 !! 3 = Some (RetKey "b0").
Proof.
  apply (bindparam_same_object_same_class_same_key
           [Bindparam rt0 1 default_options; Alias "u";
            Bindparam rt0 2 default_options;
            Bindparam rt0 1 (mkBindOptions None true NO_ARG None None
                               false false false)]
           0 3 rt0 rt0 1 1 default_options
           (mkBindOptions None true NO_ARG None None false false false));
    try reflexivity. lia.
Defined.

(** C1 as stated fails: object 1 is bound, its class is changed, and it is
    bound again; the second call looks in the list of the new class and
    mints a second key. *)
Lemma bindparam_same_object_two_keys :
  py_is 1 1 = true
  ∧ (run __init__
       [Bindparam rt0 1 default_options; Bindparam rt1 1 default_options]).1
    = [RetKey "b0"; RetKey "b1"]
  ∧ ¬ ∃ key,
      (run __init__
         [Bindparam rt0 1 default_options; Bindparam rt1 1 default_options]
      ).1 !! 0 = Some (RetKey key)
      ∧ (run __init__
         [Bindparam rt0 1 default_options; Bindparam rt1 1 default_options]
      ).1 !! 1 = Some (RetKey key).
Proof.
  split; [reflexivity|]. split; [reflexivity|].
  intros (key & H0 & H1). vm_compute in H0, H1. congruence.
Qed.




(** ** Alias allocation *)

(** C5: [alias] returns a free candidate as it is; a taken candidate gets
    the suffix [_<k>] where [k] is the size of the alias set at the call.
    The returned string is added to the set in both cases, and three calls
    [alias("t")] on a fresh context return [t], [t_1], [t_2]. *)
Theorem alias_returns_candidate_or_suffixed self name :
  (name ∉ _aliases self →
     (alias self name).1 = name
     ∧ _aliases (alias self name).2 = {[name]} ∪ _aliases self)
  ∧ (name ∈ _aliases self →
     (alias self name).1 = name +:+ "_" +:+ py_str (size (_aliases self))
     ∧ _aliases (alias self name).2
       = {[name +:+ "_" +:+ py_str (size (_aliases self))]} ∪ _aliases self)
  ∧ (alias self name).1 ∈ _aliases (alias self name).2
  ∧ _binds_values (alias self name).2 = _binds_values self
  ∧ _binds_count (alias self name).2 = _binds_count self
  ∧ _binds (alias self name).2 = _binds self
  ∧ (run __init__ [Alias "t"; Alias "t"; Alias "t"]).1
    = [RetAlias "t"; RetAlias "t_1"; RetAlias "t_2"].
Proof.
  unfold alias. simpl. repeat split.
  - by rewrite decide_False.
  - by rewrite decide_False.
  - by rewrite decide_True.
  - by rewrite decide_True.
  - set_solver.
Qed.

Lemma alias_returns_candidate_or_suffixed_witness :
  (alias __init__ "u").1 = "u"
  ∧ (alias (alias __init__ "u").2 "u").1 = "u_1".
Proof.
  split.
  - apply (alias_returns_candidate_or_suffixed __init__ "u"). set_solver.
  - apply (alias_returns_candidate_or_suffixed (alias __init__ "u").2 "u").
    vm_compute. set_solver.
Defined.

(** C3: the returned aliases are not always pairwise distinct.  After
    [alias("t_2")] and [alias("t")] the set has two members, so the third
    call [alias("t")] builds ["t_2"], which the first call has returned
    already. *)
Theorem alias_suffix_collision :
  (run __init__ [Alias "t_2"; Alias "t"; Alias "t"]).1
  = [RetAlias "t_2"; RetAlias "t"; RetAlias "t_2"]
  ∧ ¬ NoDup (returned_aliases
               (run __init__ [Alias "t_2"; Alias "t"; Alias "t"]).1).
Proof.
  split; [by vm_compute|].
  intros Hnd. vm_compute in Hnd. apply NoDup_cons in Hnd as [Hnd _].
  apply Hnd. set_solver.
Qed.

(** ** Key numbering *)

Lemma miss_results_run cs : ∀ self log,
  ctx_inv self log →
  miss_results (reg_pair <$> log) cs (run self cs).1
  = imap (λ k r, reg_ret (length log + k) r)
      (registrations (reg_pair <$> log) cs).
Proof.
  induction cs as [|c cs IH]; intros self log Hinv; [done|].
  rewrite run_cons. destruct c as [rt v opts| |name].
  - cbn [registrations]. case_decide as Hv.
    + destruct (pair_lookup log _ _ Hv) as (n & r & Hn & <- & Hty).
      rewrite (step_bind_hit self log n r rt opts) by done.
      simpl. rewrite decide_True by done. by apply IH.
    + destruct (step_bind_miss self log rt v opts Hinv Hv)
        as (self' & -> & _ & _ & _ & _ & Hinv').
      simpl. rewrite decide_False by done. rewrite Nat.add_0_r. f_equal.
      specialize (IH self' _ Hinv'). rewrite fmap_app in IH. simpl in IH.
      unfold reg_pair at 2, reg_class in IH. simpl in IH. rewrite IH.
      apply imap_ext. intros k r _. simpl. f_equal.
      rewrite length_app. simpl. lia.
  - simpl. by apply IH.
  - simpl. apply IH. by apply (ctx_inv_alias self log name).
Qed.

Lemma miss_results_sub cs : ∀ seen rs x,
  x ∈ miss_results seen cs rs → x ∈ rs.
Proof.
  induction cs as [|c cs IH]; intros seen [|r rs] x; simpl;
    try by intros ?%elem_of_nil.
  - by destruct c.
  - destruct c as [rt v o| |]; [|right; eauto..].
    case_decide; [right; eauto|].
    intros [->|Hx]%elem_of_cons; [by left|right; eauto].
Qed.

(** When no call has raised, the library has accepted every
    registration. *)
Lemma run_no_raise cs n r :
  no_raise (run __init__ cs).1 →
  registrations [] cs !! n = Some r →
  ∃ bind, reg_result n r = Return bind.
Proof.
  intros Hno Hn.
  pose proof (miss_results_run cs __init__ [] init_inv) as Hmiss.
  simpl in Hmiss.
  assert (reg_ret n r ∈ (run __init__ cs).1) as Hin.
  { apply (miss_results_sub cs [] _). rewrite Hmiss.
    by apply (elem_of_lookup_imap_2 (λ k r, reg_ret k r) _ r n). }
  unfold no_raise in Hno. rewrite Forall_forall in Hno.
  specialize (Hno _ Hin). unfold reg_ret in Hno.
  destruct (reg_result n r) as [bind|e]; [by exists bind|].
  by destruct (Hno e).
Qed.





(** ** Export *)

Lemma registrations_length cs :
  length (registrations [] cs)
  = size (list_to_set (bound_pairs cs) : gset (ref * PyType)).
Proof.
  rewrite <-(length_fmap reg_pair).
  rewrite <-(size_list_to_set (C:=gset (ref * PyType)))
    by apply registrations_init_NoDup.
  f_equal. apply set_eq. intros p. rewrite !elem_of_list_to_set.
  apply registrations_init_elem.
Qed.

Lemma stored_length n log :
  (∀ k r, log !! k = Some r → ∃ bind, reg_result (n + k) r = Return bind) →
  length (stored_from n log) = length log.
Proof.
  revert n. induction log as [|r0 log IH]; intros n Hall; [done|].
  simpl. destruct (Hall 0 r0 eq_refl) as [bind Hb].
  rewrite Nat.add_0_r in Hb. rewrite Hb. simpl. f_equal. apply IH.
  intros k r Hk. replace (S n + k) with (n + S k) by lia.
  by apply (Hall (S k)).
Qed.

Lemma bound_values_elem cs v :
  v ∈ bound_values cs ↔ ∃ rt o, Bindparam rt v o ∈ cs.
Proof.
  unfold bound_values. rewrite list_elem_of_omap. split.
  - intros ([rt w o| |] & Hin & [= <-]). by exists rt, o.
  - intros (rt & o & Hin). by exists (Bindparam rt v o).
Qed.

Lemma classes_fixed_call tau cs rt v o :
  classes_fixed tau cs → Bindparam rt v o ∈ cs →
  py_type (rt_heap rt) v = tau v.
Proof.
  unfold classes_fixed. rewrite Forall_forall. intros Hfix Hin.
  apply (Hfix _ Hin).
Qed.

(** With the classes fixed, there is a registration for every object. *)
Lemma registrations_length_fixed tau cs :
  classes_fixed tau cs →
  length (registrations [] cs)
  = size (list_to_set (bound_values cs) : gset ref).
Proof.
  intros Hfix.
  assert (∀ r, r ∈ registrations [] cs → reg_class r = tau (reg_value r))
    as Hcls.
  { intros r Hr%registrations_call.
    apply (classes_fixed_call tau cs _ _ _ Hfix Hr). }
  assert (reg_pair <$> registrations [] cs
          = (λ v, (v, tau v)) <$> (reg_value <$> registrations [] cs))
    as Hpairs.
  { rewrite <-list_fmap_compose. apply list_fmap_ext.
    intros k r Hk. simpl. unfold reg_pair.
    by rewrite (Hcls r (list_elem_of_lookup_2 _ _ _ Hk)). }
  rewrite <-(length_fmap reg_value).
  rewrite <-(size_list_to_set (C:=gset ref)).
  - f_equal. apply set_eq. intros v. rewrite !elem_of_list_to_set. split.
    + intros (r & -> & Hr%registrations_call)%list_elem_of_fmap.
      apply bound_values_elem. eauto.
    + intros (rt & o & Hin)%bound_values_elem.
      assert ((v, py_type (rt_heap rt) v) ∈ bound_pairs cs) as Hp.
      { apply list_elem_of_omap. by exists (Bindparam rt v o). }
      apply registrations_init_elem in Hp.
      apply list_elem_of_fmap in Hp as (r & [= -> _] & Hr).
      by apply list_elem_of_fmap_2.
  - apply (NoDup_fmap_1 (λ v, (v, tau v))). rewrite <-Hpairs.
    apply registrations_init_NoDup.
Qed.

(** C6, as the code has it: [get_bindparams] returns, in the order in
    which the keys were minted, the parameters that the library returned
    to the cache misses, and leaves the context as it is.  When no call
    has raised there is one parameter for every distinct pair of an object
    and the class it had at a call, hence one for every distinct object
    when no object has changed its class between its calls. *)
Theorem get_bindparams_exports_registrations cs :
  get_bindparams (run __init__ cs).2 = exported (registrations [] cs)
  ∧ (no_raise (run __init__ cs).1 →
     length (get_bindparams (run __init__ cs).2)
     = size (list_to_set (bound_pairs cs) : gset (ref * PyType)))
  ∧ (no_raise (run __init__ cs).1 → ∀ tau, classes_fixed tau cs →
     length (get_bindparams (run __init__ cs).2)
     = size (list_to_set (bound_values cs) : gset ref))
  ∧ step (run __init__ cs).2 GetBindparams
    = (RetBinds (get_bindparams (run __init__ cs).2), (run __init__ cs).2).
Proof.
  pose proof (run_init_inv cs) as [_ Hbinds _ _].
  assert (no_raise (run __init__ cs).1 →
          length (get_bindparams (run __init__ cs).2)
          = length (registrations [] cs)) as Hlen.
  { intros Hno. unfold get_bindparams, dict_values.
    rewrite Hbinds, length_fmap. apply (stored_length 0).
    intros k r Hk. by apply (run_no_raise cs). }
  split; [|split; [|split; [|done]]].
  - unfold get_bindparams, exported. by rewrite Hbinds.
  - intros Hno. rewrite (Hlen Hno). apply registrations_length.
  - intros Hno tau Hfix. rewrite (Hlen Hno).
    by apply (registrations_length_fixed tau).
Qed.

Lemma get_bindparams_exports_registrations_witness :
  length (get_bindparams
            (run __init__
               [Bindparam rt0 1 default_options; Alias "u";
                Bindparam rt0 3 default_options;
                Bindparam rt0 1 default_options]).2)
  = size (list_to_set
            (bound_values
               [Bindparam rt0 1 default_options; Alias "u";
                Bindparam rt0 3 default_options;
                Bindparam rt0 1 default_options]) : gset ref).
Proof.
  apply (get_bindparams_exports_registrations
           [Bindparam rt0 1 default_options; Alias "u";
            Bindparam rt0 3 default_options;
            Bindparam rt0 1 default_options]) with tau0.
  - repeat constructor; by intros e.
  - by repeat constructor.
Defined.

(** C6 as stated fails: one object, bound before and after a change of
    its class, leaves two parameters to export. *)
Lemma get_bindparams_two_for_one_object :
  length (get_bindparams
            (run __init__
               [Bindparam rt0 1 default_options;
                Bindparam rt1 1 default_options]).2) = 2
  ∧ size (list_to_set
            (bound_values
               [Bindparam rt0 1 default_options;
                Bindparam rt1 1 default_options]) : gset ref) = 1.
Proof. split; [reflexivity|by vm_compute]. Qed.

(** ** Deduplication hits *)




(** ** The buckets are an optimisation *)

Section Flat.

Context (tau : ref → PyType).
Implicit Types flat : FlatContext.

(** Looking in the bucket of the value's class finds what a scan over all
    entries finds. *)
Lemma scan_bucket l v :
  scan (filter (λ e, tau e.1 = tau v) l) v = scan l v.
Proof.
  induction l as [|[v' k'] l IH]; [done|].
  rewrite filter_cons. simpl. unfold py_is.
  case_bool_decide as Hv.
  - subst v'. rewrite decide_True by done. simpl. unfold py_is.
    by rewrite bool_decide_eq_true_2.
  - case_decide; [|done]. simpl. unfold py_is.
    by rewrite bool_decide_eq_false_2.
Qed.

Lemma flat_init_sim : sim tau __init__ flat_init.
Proof. by split. Qed.

Lemma sim_bindparam rt self flat v opts :
  sim tau self flat → py_type (rt_heap rt) v = tau v →
  (bindparam rt self v opts).1 = (flat_bindparam rt flat v opts).1
  ∧ sim tau (bindparam rt self v opts).2 (flat_bindparam rt flat v opts).2.
Proof.
  intros [Hal Hcnt Hbinds Hgrp] Hty. rewrite bindparam_unfold. simpl.
  unfold flat_bindparam. rewrite Hty, Hgrp, scan_bucket.
  destruct (scan (flat_values flat) v) as [k|]; [done|].
  unfold key_of. rewrite Hcnt, Hbinds. simpl.
  assert (∀ ty,
    default []
      (<[tau v := filter (λ e, tau e.1 = tau v) (flat_values flat)
                  ++ [(v, "b" +:+ py_str (flat_count flat))]]>
         (_binds_values self) !! ty)
    = filter (λ e, tau e.1 = ty)
        (flat_values flat ++ [(v, "b" +:+ py_str (flat_count flat))]))
    as Hgrp'.
  { intros ty. rewrite filter_app.
    destruct (decide (tau v = ty)) as [<-|Hne].
    - rewrite lookup_insert_eq. simpl.
      rewrite filter_cons_True by done. by rewrite filter_nil.
    - rewrite lookup_insert_ne by done. rewrite Hgrp.
      rewrite filter_cons_False by done. by rewrite filter_nil, app_nil_r. }
  destruct (rt_bindparam rt ("b" +:+ py_str (flat_count flat)) v opts);
    simpl; (split; [done|]); by split.
Qed.

Lemma sim_step self flat c :
  sim tau self flat → classes_fixed tau [c] →
  (step self c).1 = (flat_step flat c).1
  ∧ sim tau (step self c).2 (flat_step flat c).2.
Proof.
  intros Hsim Hfix. destruct c as [rt v opts| |name]; simpl.
  - unfold classes_fixed in Hfix. rewrite Forall_singleton in Hfix.
    destruct (sim_bindparam rt self flat v opts Hsim Hfix) as [Hk Hsim'].
    destruct (bindparam rt self v opts) as [[k|e] s],
      (flat_bindparam rt flat v opts) as [[k'|e'] s'];
      simpl in *; by simplify_eq.
  - split; [|done]. unfold get_bindparams, flat_get_bindparams.
    by rewrite (sim_binds _ _ _ Hsim).
  - destruct Hsim as [Hal Hcnt Hbinds Hgrp].
    unfold alias, flat_alias. simpl. rewrite Hal. by split.
Qed.

Lemma flat_run_cons flat c cs :
  flat_run flat (c :: cs)
  = ((flat_step flat c).1 :: (flat_run (flat_step flat c).2 cs).1,
     (flat_run (flat_step flat c).2 cs).2).
Proof.
  simpl. destruct (flat_step flat c) as [res flat']. simpl.
  by destruct (flat_run flat' cs).
Qed.

Lemma sim_run cs : ∀ self flat,
  sim tau self flat → classes_fixed tau cs →
  (run self cs).1 = (flat_run flat cs).1
  ∧ sim tau (run self cs).2 (flat_run flat cs).2.
Proof.
  induction cs as [|c cs IH]; intros self flat Hsim Hfix; [done|].
  unfold classes_fixed in Hfix. rewrite Forall_cons in Hfix.
  destruct Hfix as [Hc Hfix].
  rewrite run_cons, flat_run_cons. simpl.
  destruct (sim_step self flat c Hsim) as [-> Hsim'].
  { unfold classes_fixed. by rewrite Forall_singleton. }
  destruct (IH _ _ Hsim' Hfix) as [-> Hsim'']. done.
Qed.

End Flat.

(** C8, as the code has it: when no object changes its class between two
    of its calls, the registry that scans the bucket of the value's class
    and the registry that scans one flat list of all [(value, key)] pairs
    return the same results to every sequence of calls and export the
    same parameters afterwards. *)
Theorem bucketed_registry_equals_flat tau cs :
  classes_fixed tau cs →
  (run __init__ cs).1 = (flat_run flat_init cs).1
  ∧ get_bindparams (run __init__ cs).2
    = flat_get_bindparams (flat_run flat_init cs).2.
Proof.
  intros Hfix.
  destruct (sim_run tau cs __init__ flat_init (flat_init_sim tau) Hfix)
    as [Hr Hsim].
  split; [done|]. unfold get_bindparams, flat_get_bindparams.
  by rewrite (sim_binds _ _ _ Hsim).
Qed.

Lemma bucketed_registry_equals_flat_witness :
  (run __init__
     [Bindparam rt0 1 default_options; Bindparam rt0 9 default_options;
      Bindparam rt0 3 default_options; Bindparam rt0 1 default_options]).1
  = (flat_run flat_init
       [Bindparam rt0 1 default_options; Bindparam rt0 9 default_options;
        Bindparam rt0 3 default_options; Bindparam rt0 1 default_options]).1
  ∧ get_bindparams
      (run __init__
         [Bindparam rt0 1 default_options; Bindparam rt0 9 default_options;
          Bindparam rt0 3 default_options; Bindparam rt0 1 default_options]
      ).2
    = flat_get_bindparams
        (flat_run flat_init
           [Bindparam rt0 1 default_options;
            Bindparam rt0 9 default_options;
            Bindparam rt0 3 default_options;
            Bindparam rt0 1 default_options]).2.
Proof.
  apply (bucketed_registry_equals_flat tau0). by repeat constructor.
Defined.

(** C8 as stated fails: after a change of class the bucketed registry
    does not find object 1 and mints [b1], the flat one finds it. *)
Lemma bucketed_registry_differs_from_flat :
  (run __init__
     [Bindparam rt0 1 default_options; Bindparam rt1 1 default_options]).1
  = [RetKey "b0"; RetKey "b1"]
  ∧ (flat_run flat_init
       [Bindparam rt0 1 default_options; Bindparam rt1 1 default_options]).1
    = [RetKey "b0"; RetKey "b0"]
  ∧ (run __init__
       [Bindparam rt0 1 default_options; Bindparam rt1 1 default_options]).1
    ≠ (flat_run flat_init
         [Bindparam rt0 1 default_options; Bindparam rt1 1 default_options]
      ).1.
Proof. split; [reflexivity|]. split; [reflexivity|]. by vm_compute. Qed.

(** ** The invariant of the data model *)

Lemma bucket_keys_insert (m : gmap PyType (list (ref * string))) ty e :
  map_to_list (<[ty := default [] (m !! ty) ++ [e]]> m)
    ≫= (λ bucket, bucket.2.*2)
  ≡ₚ e.2 :: (map_to_list m ≫= λ bucket, bucket.2.*2).
Proof.
  destruct (m !! ty) as [g|] eqn:Hty; simpl.
  - rewrite <-insert_delete_eq.
    rewrite map_to_list_insert by apply lookup_delete_eq.
    rewrite <-(map_to_list_delete m ty g Hty).
    rewrite !bind_cons. simpl. rewrite fmap_app, <-app_assoc. simpl.
    by rewrite <-Permutation_middle.
  - rewrite map_to_list_insert by done. by rewrite bind_cons.
Qed.

Lemma init_keys_inv : binds_keys_inv __init__.
Proof.
  split; [|constructor]. unfold bucket_keys. simpl.
  by rewrite map_to_list_empty.
Qed.

(** A call that does not raise keeps the invariant. *)
Lemma step_keys_inv self log c :
  ctx_inv self log → binds_keys_inv self →
  (∀ e, (step self c).1 ≠ RetRaise e) →
  binds_keys_inv (step self c).2.
Proof.
  intros Hinv [Hperm Hnd] Hno. destruct c as [rt v opts| |name]; [|done..].
  destruct (decide ((v, py_type (rt_heap rt) v) ∈ reg_pair <$> log))
    as [Hv|Hv].
  - destruct (pair_lookup log _ _ Hv) as (n & r & Hn & <- & Hty).
    by rewrite (step_bind_hit self log n r rt opts).
  - destruct (step_bind_miss self log rt v opts Hinv Hv)
      as (self' & Hstep & _ & _ & Hb & Hg & Hinv').
    rewrite Hstep in *. simpl in *. unfold reg_ret, reg_result in *.
    simpl in *.
    destruct (rt_bindparam rt (key_of (length log)) v opts) as [bind|e];
      [|by destruct (Hno e)].
    split.
    + unfold bucket_keys, dict_keys. rewrite Hb, Hg.
      rewrite bucket_keys_insert, fmap_app. simpl.
      rewrite <-Permutation_cons_append. by f_equiv.
    + rewrite (inv_binds _ _ Hinv'). apply stored_keys_NoDup.
Qed.

(** The invariant holds as long as no call has raised. *)
Lemma run_keys_inv cs : ∀ self log,
  ctx_inv self log → binds_keys_inv self → no_raise (run self cs).1 →
  binds_keys_inv (run self cs).2.
Proof.
  induction cs as [|c cs IH]; intros self log Hinv Hkeys Hno; [done|].
  rewrite run_cons in *. cbn [fst snd] in *.
  unfold no_raise in Hno. rewrite Forall_cons in Hno.
  destruct Hno as [Hc Hno].
  eapply IH; [by apply step_inv|by eapply step_keys_inv|done].
Qed.

(** No call lowers the counter or touches a stored parameter. *)
Lemma step_monotone self log c :
  ctx_inv self log →
  _binds_count self ≤ _binds_count (step self c).2
  ∧ ∀ key bind,
      dict_get (_binds self) key = Some bind →
      dict_get (_binds (step self c).2) key = Some bind.
Proof.
  intros Hinv. destruct c as [rt v opts| |name]; [|done..].
  destruct (decide ((v, py_type (rt_heap rt) v) ∈ reg_pair <$> log))
    as [Hv|Hv].
  - destruct (pair_lookup log _ _ Hv) as (n & r & Hn & <- & Hty).
    by rewrite (step_bind_hit self log n r rt opts).
  - destruct (step_bind_miss self log rt v opts Hinv Hv)
      as (self' & -> & _ & Hc & Hb & _ & _).
    simpl. split; [lia|]. intros key bind Hget. rewrite Hb.
    by apply dict_get_app.
Qed.

(** C9: the keys of [_binds] are not always the keys held in the
    type-grouped lists.  The library refuses object 9 after the counter
    has advanced and [(9, "b0")] has gone into the list of its class: the
    call raises, [b0] stays in the list and nothing is stored under it. *)
Theorem binds_keys_inv_broken_by_raise :
  (run __init__ [Bindparam rt0 9 default_options]).1
  = [RetRaise "ArgumentError"]
  ∧ bucket_keys (run __init__ [Bindparam rt0 9 default_options]).2 = ["b0"]
  ∧ dict_keys (_binds (run __init__ [Bindparam rt0 9 default_options]).2)
    = []
  ∧ _binds_count (run __init__ [Bindparam rt0 9 default_options]).2 = 1
  ∧ ¬ binds_keys_inv (run __init__ [Bindparam rt0 9 default_options]).2.
Proof.
  assert (bucket_keys (run __init__ [Bindparam rt0 9 default_options]).2
          = ["b0"]) as Hk by (by vm_compute).
  split; [reflexivity|]. split; [done|]. split; [reflexivity|].
  split; [reflexivity|].
  intros [Hperm _]. rewrite Hk in Hperm.
  by apply Permutation_nil_cons in Hperm.
Qed.

(** X11: as long as no call has raised, the keys of [_binds] are the keys
    held in the type-grouped lists, each exactly once; and, raise or not,
    no call lowers the counter and a stored key keeps its parameter. *)
Theorem binds_keys_invariant_without_raise cs c :
  (no_raise (run __init__ cs).1 → binds_keys_inv (run __init__ cs).2)
  ∧ _binds_count (run __init__ cs).2
    ≤ _binds_count (step (run __init__ cs).2 c).2
  ∧ ∀ key bind,
      dict_get (_binds (run __init__ cs).2) key = Some bind →
      dict_get (_binds (step (run __init__ cs).2 c).2) key = Some bind.
Proof.
  split.
  - apply (run_keys_inv cs __init__ []); [apply init_inv|apply init_keys_inv].
  - apply (step_monotone _ _ c (run_init_inv cs)).
Qed.

(** ** Options of a repeated registration *)

(** C10, as the code has it: when a call of [bindparam] has registered an
    object and returned its key, a later call with the same object, the
    object having the class it had then, and with other options returns
    that key and changes nothing: the parameter stored under the key is
    still the one that the library built from the options of the first
    call, and [get_bindparams] returns what it returned before. *)
Theorem bindparam_keeps_first_options
    cs1 cs2 rta rtb v opts1 opts2 key :
  (v, py_type (rt_heap rta) v) ∉ bound_pairs cs1 →
  (run __init__ (cs1 ++ Bindparam rta v opts1 :: cs2)).1 !! length cs1
  = Some (RetKey key) →
  py_type (rt_heap rtb) v = py_type (rt_heap rta) v →
  ∃ bind,
    rt_bindparam rta key v opts1 = Return bind
    ∧ bindparam rtb (run __init__ (cs1 ++ Bindparam rta v opts1 :: cs2)).2
        v opts2
      = (Return key, (run __init__ (cs1 ++ Bindparam rta v opts1 :: cs2)).2)
    ∧ dict_get
        (_binds (run __init__ (cs1 ++ Bindparam rta v opts1 :: cs2)).2) key
      = Some bind
    ∧ get_bindparams
        (bindparam rtb
           (run __init__ (cs1 ++ Bindparam rta v opts1 :: cs2)).2
           v opts2).2
      = get_bindparams (run __init__ (cs1 ++ Bindparam rta v opts1 :: cs2)).2.
Proof.
  intros Hfirst Hret Hty.
  set (cs := cs1 ++ Bindparam rta v opts1 :: cs2) in *.
  assert (cs !! length cs1 = Some (Bindparam rta v opts1)) as Hi.
  { unfold cs. by apply list_lookup_middle. }
  assert (take (length cs1) cs = cs1) as Htake.
  { unfold cs. by rewrite take_app_length. }
  destruct (run_bind_result cs (length cs1) rta v opts1 Hi)
    as (n & r & Hn & Hv & Hc & Hr).
  rewrite Htake in Hr.
  destruct Hr as [(Hin & _)|(_ & _ & -> & Hr)]; [done|].
  rewrite Hret in Hr. injection Hr as Hr. symmetry in Hr.
  pose proof (reg_ret_key _ _ _ Hr) as ->.
  destruct (reg_ret_result _ _ _ Hr) as [bind Hbind].
  pose proof (run_init_inv cs) as Hinv.
  exists bind. split; [done|].
  pose proof (bindparam_hit _ _ n (mkRegistration rta v opts1) rtb opts2
                Hinv Hn) as Hhit.
  simpl in Hhit. rewrite Hhit by (unfold reg_class; simpl; congruence).
  split; [done|]. split; [|done].
  rewrite (inv_binds _ _ Hinv).
  by apply (stored_lookup 0 _ n (mkRegistration rta v opts1)).
Qed.

Lemma bindparam_keeps_first_options_witness :
  ∃ bind,
    rt_bindparam rt0 "b1" 1
      (mkBindOptions (Some "Integer") true NO_ARG None None
         false false false) = Return bind
    ∧ dict_get
        (_binds
           (run __init__
              ([Alias "u"; Bindparam rt0 2 default_options]
               ++ Bindparam rt0 1
                    (mkBindOptions (Some "Integer") true NO_ARG None None
                       false false false)
               :: [GetBindparams])).2) "b1"
      = Some bind
    ∧ get_bindparams
        (bindparam rt0
           (run __init__
              ([Alias "u"; Bindparam rt0 2 default_options]
               ++ Bindparam rt0 1
                    (mkBindOptions (Some "Integer") true NO_ARG None None
                       false false false)
               :: [GetBindparams])).2
           1 default_options).2
      = [1002; 2001]%N.
Proof.
  destruct (bindparam_keeps_first_options
              [Alias "u"; Bindparam rt0 2 default_options] [GetBindparams]
              rt0 rt0 1
              (mkBindOptions (Some "Integer") true NO_ARG None None
                 false false false)
              default_options "b1")
    as (bind & Hlib & Hb & Hget & Hexp).
  - simpl. by intros ?%list_elem_of_singleton.
  - reflexivity.
  - reflexivity.
  - exists bind. split; [done|]. split; [done|]. by rewrite Hexp.
Defined.

(** C10 as stated fails: object 1 is registered with the default options,
    its class is changed, and a call with [unique=True] stores a second
    parameter built from the new options. *)
Lemma bindparam_second_options_stored :
  get_bindparams (run __init__ [Bindparam rt0 1 default_options]).2
  = [1001%N]
  ∧ bindparam rt1 (run __init__ [Bindparam rt0 1 default_options]).2 1
      (mkBindOptions None true NO_ARG None None false false false)
    = (Return "b1",
       (run __init__
          [Bindparam rt0 1 default_options;
           Bindparam rt1 1
             (mkBindOptions None true NO_ARG None None false false false)]
       ).2)
  ∧ get_bindparams
      (bindparam rt1 (run __init__ [Bindparam rt0 1 default_options]).2 1
         (mkBindOptions None true NO_ARG None None false false false)).2
    = [1001; 2001]%N.
Proof. split; [reflexivity|]. split; reflexivity. Qed.

(** ** Scenarios *)

(** The same object bound twice through two variables: one key, one
    exported parameter. *)
Example scenario_same_object :
  (run __init__
     [Bindparam rt0 1 default_options; Bindparam rt0 1 default_options;
      GetBindparams]).1
  = [RetKey "b0"; RetKey "b0"; RetBinds [1001%N]].
Proof. reflexivity. Qed.

(** Two independent objects holding 42: two keys, two exported
    parameters. *)
Example scenario_equal_objects :
  py_eq heap0 1 2 = true
  ∧ (run __init__
       [Bindparam rt0 1 default_options; Bindparam rt0 2 default_options;
        GetBindparams]).1
    = [RetKey "b0"; RetKey "b1"; RetBinds [1001; 1002]%N].
Proof. split; reflexivity. Qed.

(** A refused object: the call raises, a repeat returns the key that
    names nothing, and the next object gets [b1]. *)
Example scenario_refused_object :
  (run __init__
     [Bindparam rt0 9 default_options; Bindparam rt0 9 default_options;
      Bindparam rt0 1 default_options; GetBindparams]).1
  = [RetRaise "ArgumentError"; RetKey "b0"; RetKey "b1";
     RetBinds [1001%N]].
Proof. reflexivity. Qed.

(** [alias("u")] twice. *)
Example scenario_alias_twice :
  (run __init__ [Alias "u"; Alias "u"]).1 = [RetAlias "u"; RetAlias "u_1"].
Proof. by vm_compute. Qed.

(** ** Further properties of [bindparam] *)



(** ** Further properties of [alias] *)

Lemma bindparam_aliases rt self v opts :
  _aliases (bindparam rt self v opts).2 = _aliases self.
Proof. rewrite bindparam_unfold. simpl. by repeat case_match. Qed.

Lemma step_aliases self c :
  _aliases (step self c).2
  = _aliases self ∪ list_to_set (returned_aliases [(step self c).1]).
Proof.
  destruct c as [rt v opts| |name]; simpl.
  - pose proof (bindparam_aliases rt self v opts) as Hal.
    destruct (bindparam rt self v opts) as [[k|e] s]; simpl in *;
      rewrite Hal; unfold returned_aliases; simpl;
      by rewrite (right_id_L ∅ (∪)).
  - unfold returned_aliases. simpl. by rewrite (right_id_L ∅ (∪)).
  - unfold alias, returned_aliases. simpl.
    by rewrite (right_id_L ∅ (∪)), (comm_L (∪)).
Qed.

Lemma returned_aliases_cons (res : ret) rs :
  returned_aliases (res :: rs) = returned_aliases [res] ++ returned_aliases rs.
Proof. unfold returned_aliases. by destruct res. Qed.

Lemma run_aliases cs : ∀ self,
  _aliases (run self cs).2
  = _aliases self ∪ list_to_set (returned_aliases (run self cs).1).
Proof.
  induction cs as [|c cs IH]; intros self.
  - unfold returned_aliases. simpl. by rewrite (right_id_L ∅ (∪)).
  - rewrite run_cons. cbn [fst snd]. rewrite IH, step_aliases.
    rewrite (returned_aliases_cons (step self c).1
               (run (step self c).2 cs).1).
    by rewrite list_to_set_app_L, (assoc_L (∪)).
Qed.

Lemma run_init_aliases cs :
  _aliases (run __init__ cs).2
  = list_to_set (returned_aliases (run __init__ cs).1).
Proof. rewrite run_aliases. simpl. by rewrite (left_id_L ∅ (∪)). Qed.

(** X2: the alias set of a context is the set of the strings that its
    calls of [alias] have returned; calls of the other two methods add
    nothing to it. *)
Theorem alias_set_is_returned_aliases cs :
  _aliases (run __init__ cs).2
  = list_to_set (returned_aliases (run __init__ cs).1)
  ∧ ∀ rt self v opts,
      _aliases (bindparam rt self v opts).2 = _aliases self
      ∧ (step self GetBindparams).2 = self.
Proof.
  split; [apply run_init_aliases|]. intros rt self v opts.
  split; [apply bindparam_aliases|done].
Qed.

Lemma run_alias_result cs i name :
  cs !! i = Some (Alias name) →
  (run __init__ cs).1 !! i
  = Some (RetAlias
      (if decide (name ∈ returned_aliases (take i (run __init__ cs).1))
       then suffixed name
              (size (list_to_set
                       (returned_aliases (take i (run __init__ cs).1))
                     : gset string))
       else name)).
Proof.
  intros Hi. destruct (run_split __init__ cs i _ Hi) as [-> ->].
  pose proof (run_init_aliases (take i cs)) as Hal.
  simpl. rewrite Hal. unfold suffixed. do 2 f_equal.
  destruct (decide (name ∈ returned_aliases
                             (run __init__ (take i cs)).1)) as [Hin|Hnin].
  - rewrite decide_True; [done|]. by apply elem_of_list_to_set.
  - rewrite decide_False; [done|]. by rewrite elem_of_list_to_set.
Qed.

(** X3: what a call [alias(name)] returns, read off the calls before it:
    the name itself when no call of [alias] has returned that string so
    far, and otherwise the name with the suffix [_<k>], where [k] is the
    number of distinct strings returned so far. *)
Theorem alias_result_from_history cs i name :
  cs !! i = Some (Alias name) →
  (run __init__ cs).1 !! i
  = Some (RetAlias
      (if decide (name ∈ returned_aliases (take i (run __init__ cs).1))
       then suffixed name
              (size (list_to_set
                       (returned_aliases (take i (run __init__ cs).1))
                     : gset string))
       else name)).
Proof. apply run_alias_result. Qed.

Lemma alias_result_from_history_witness :
  (run __init__ [Alias "t"; Alias "u"; Alias "t"]).1 !! 2
  = Some (RetAlias
      (if decide ("t" ∈ returned_aliases
                          (take 2 (run __init__
                                     [Alias "t"; Alias "u"; Alias "t"]).1))
       then suffixed "t"
              (size (list_to_set
                       (returned_aliases
                          (take 2 (run __init__
                                     [Alias "t"; Alias "u"; Alias "t"]).1))
                     : gset string))
       else "t")).
Proof.
  apply (alias_result_from_history [Alias "t"; Alias "u"; Alias "t"] 2 "t").
  reflexivity.
Defined.

(** X4: a call of [alias] returns a string that an earlier call has
    returned exactly when both its candidate and the candidate with the
    suffix of the current size have been returned before. *)
Theorem alias_repeats_iff_both_taken cs i name (res : string) :
  cs !! i = Some (Alias name) →
  (run __init__ cs).1 !! i = Some (RetAlias res) →
  res ∈ returned_aliases (take i (run __init__ cs).1)
  ↔ name ∈ returned_aliases (take i (run __init__ cs).1)
    ∧ suffixed name
        (size (list_to_set
                 (returned_aliases (take i (run __init__ cs).1))
               : gset string))
      ∈ returned_aliases (take i (run __init__ cs).1).
Proof.
  intros Hi Hr. rewrite (run_alias_result cs i name Hi) in Hr.
  injection Hr as <-. case_decide as Hin; [tauto|]. tauto.
Qed.

Lemma alias_repeats_iff_both_taken_witness :
  "t_2" ∈ returned_aliases
            (take 2 (run __init__ [Alias "t_2"; Alias "t"; Alias "t"]).1)
  ↔ "t" ∈ returned_aliases
            (take 2 (run __init__ [Alias "t_2"; Alias "t"; Alias "t"]).1)
    ∧ suffixed "t"
        (size (list_to_set
                 (returned_aliases
                    (take 2 (run __init__
                               [Alias "t_2"; Alias "t"; Alias "t"]).1))
               : gset string))
      ∈ returned_aliases
          (take 2 (run __init__ [Alias "t_2"; Alias "t"; Alias "t"]).1).
Proof.
  apply (alias_repeats_iff_both_taken
           [Alias "t_2"; Alias "t"; Alias "t"] 2 "t" "t_2").
  - reflexivity.
  - by vm_compute.
Defined.

(** *** Candidates without underscore *)

Lemma contains_char_app ch s t :
  contains_char ch (s +:+ t) = contains_char ch s || contains_char ch t.
Proof.
  induction s as [|c s IH]; simpl; [done|]. by rewrite IH, orb_assoc.
Qed.

Lemma suffixed_contains name k : contains_char "_"%char (suffixed name k) = true.
Proof.
  unfold suffixed. rewrite contains_char_app. simpl.
  by rewrite orb_true_r.
Qed.

Lemma suffixed_inj n m k j :
  contains_char "_"%char n = false → contains_char "_"%char m = false →
  suffixed n k = suffixed m j → n = m ∧ k = j.
Proof.
  unfold suffixed. revert m.
  induction n as [|c n IH]; intros [|d m]; simpl; intros Hn Hm Heq.
  - injection Heq as Heq. split; [done|]. by apply pretty_nat_inj.
  - injection Heq as <- _. by rewrite bool_decide_eq_true_2 in Hm.
  - injection Heq as -> _. by rewrite bool_decide_eq_true_2 in Hn.
  - injection Heq as -> Heq.
    apply orb_false_elim in Hn as [_ Hn].
    apply orb_false_elim in Hm as [_ Hm].
    destruct (IH m Hn Hm Heq) as [-> ->]. done.
Qed.

Lemma alias_shaped_empty : alias_shaped ∅.
Proof. intros x Hx. by apply not_elem_of_empty in Hx. Qed.

(** With such a candidate the returned string is new to the set. *)
Lemma alias_shaped_fresh self name :
  alias_shaped (_aliases self) → contains_char "_"%char name = false →
  ((alias self name).1 ∉ _aliases self)
  ∧ alias_shaped (_aliases (alias self name).2)
  ∧ size (_aliases (alias self name).2) = S (size (_aliases self)).
Proof.
  intros Hshape Hname. unfold alias. simpl.
  set (A := _aliases self) in *.
  set (res := if decide (name ∈ A) then name +:+ "_" +:+ py_str (size A)
              else name).
  assert (res ∉ A) as Hr.
  { unfold res. case_decide as Hin; [|done]. intros Hsuf.
    change (name +:+ "_" +:+ py_str (size A))
      with (suffixed name (size A)) in Hsuf.
    destruct (Hshape _ Hsuf) as [Hno|(m & j & Heq & Hm & Hj)].
    - by rewrite (suffixed_contains name (size A)) in Hno.
    - apply (suffixed_inj name m (size A) j Hname Hm) in Heq as [_ Heq]. lia. }
  assert (size ({[res]} ∪ A) = S (size A)) as Hsize.
  { rewrite size_union by set_solver. by rewrite size_singleton. }
  split; [done|]. split; [|done].
  intros x Hx. rewrite Hsize.
  apply elem_of_union in Hx as [->%elem_of_singleton|Hx].
  - unfold res. case_decide; [right|by left].
    exists name, (size A). split; [done|]. split; [done|]. lia.
  - destruct (Hshape x Hx) as [Hno|(m & j & Heq & Hm & Hj)]; [by left|].
    right. exists m, j. split; [done|]. split; [done|]. lia.
Qed.

Lemma run_alias_distinct cs : ∀ self,
  alias_shaped (_aliases self) →
  Forall (λ name, contains_char "_"%char name = false) (alias_candidates cs) →
  NoDup (returned_aliases (run self cs).1)
  ∧ (∀ x, x ∈ returned_aliases (run self cs).1 → x ∉ _aliases self)
  ∧ size (_aliases (run self cs).2)
    = size (_aliases self) + length (alias_candidates cs).
Proof.
  induction cs as [|c cs IH]; intros self Hshape Hcs.
  - unfold returned_aliases. simpl. split; [constructor|].
    split; [by intros x ?%elem_of_nil|lia].
  - rewrite run_cons. cbn [fst snd].
    rewrite (returned_aliases_cons (step self c).1
               (run (step self c).2 cs).1).
    destruct c as [rt v opts| |name].
    + simpl. pose proof (bindparam_aliases rt self v opts) as Hal.
      destruct (bindparam rt self v opts) as [[k|e] self']; simpl in *;
        rewrite <-Hal in *; by apply IH.
    + simpl. by apply IH.
    + unfold alias_candidates in Hcs. simpl in Hcs.
      apply Forall_cons in Hcs as [Hname Hcs].
      destruct (alias_shaped_fresh self name Hshape Hname)
        as (Hr & Hshape' & Hsize).
      destruct (IH (alias self name).2 Hshape' Hcs) as (Hnd & Hnew & Hsz).
      unfold returned_aliases at 1. simpl in *.
      split; [|split].
      * apply NoDup_cons. split; [|done]. intros Hin.
        apply (Hnew _ Hin). set_solver.
      * intros x [->|Hx]%elem_of_cons; [done|].
        intros HA. apply (Hnew x Hx). set_solver.
      * unfold alias_candidates. simpl.
        fold (alias_candidates cs). rewrite Hsz, Hsize. lia.
Qed.

(** X5: when no candidate passed to [alias] holds an underscore, the
    returned strings are pairwise distinct, and the alias set has one
    member for every call of [alias]. *)
Theorem alias_distinct_without_underscore cs :
  Forall (λ name, contains_char "_"%char name = false) (alias_candidates cs) →
  NoDup (returned_aliases (run __init__ cs).1)
  ∧ size (_aliases (run __init__ cs).2) = length (alias_candidates cs).
Proof.
  intros Hcs.
  destruct (run_alias_distinct cs __init__ alias_shaped_empty Hcs)
    as (Hnd & _ & Hsz).
  split; [done|]. by rewrite Hsz.
Qed.

Lemma alias_distinct_without_underscore_witness :
  NoDup (returned_aliases
           (run __init__
              [Alias "t"; Alias "u"; Bindparam rt0 1 default_options;
               Alias "t"; Alias "t"]).1)
  ∧ size (_aliases
            (run __init__
               [Alias "t"; Alias "u"; Bindparam rt0 1 default_options;
                Alias "t"; Alias "t"]).2)
    = length (alias_candidates
                [Alias "t"; Alias "u"; Bindparam rt0 1 default_options;
                 Alias "t"; Alias "t"]).
Proof.
  apply (alias_distinct_without_underscore
           [Alias "t"; Alias "u"; Bindparam rt0 1 default_options;
            Alias "t"; Alias "t"]).
  simpl. repeat constructor.
Defined.

(** ** Further properties of the registry *)

Lemma dict_get_values {V} (d : list (string * V)) k x :
  dict_get d k = Some x → x ∈ dict_values d.
Proof.
  unfold dict_values. induction d as [|[k' x'] d IH]; simpl; [done|].
  rewrite elem_of_cons. case_decide; [intros [= ->]; by left|right; auto].
Qed.

(** X6: when no call has raised, a key that a call of [bindparam] returns
    is a key of [_binds], and the parameter stored under it, which
    [get_bindparams] returns, is the one that the library built from this
    key and the object passed, at a call that passed the object with the
    class it has now. *)
Theorem bindparam_key_names_stored_parameter cs i rt v opts key :
  cs !! i = Some (Bindparam rt v opts) →
  no_raise (run __init__ cs).1 →
  (run __init__ cs).1 !! i = Some (RetKey key) →
  ∃ bind rt' opts',
    Bindparam rt' v opts' ∈ cs
    ∧ py_type (rt_heap rt') v = py_type (rt_heap rt) v
    ∧ rt_bindparam rt' key v opts' = Return bind
    ∧ dict_get (_binds (run __init__ cs).2) key = Some bind
    ∧ bind ∈ get_bindparams (run __init__ cs).2.
Proof.
  intros Hi Hno Hret.
  destruct (run_bind_result cs i rt v opts Hi)
    as (n & r & Hn & <- & Hc & Hr).
  assert (key = key_of n) as ->.
  { destruct Hr as [(_ & _ & Hr)|(_ & _ & _ & Hr)].
    - congruence.
    - apply (reg_ret_key n r). congruence. }
  destruct (run_no_raise cs n r Hno Hn) as [bind Hbind].
  assert (dict_get (_binds (run __init__ cs).2) (key_of n) = Some bind)
    as Hget.
  { rewrite (inv_binds _ _ (run_init_inv cs)).
    by apply (stored_lookup 0 _ n r). }
  exists bind, (reg_rt r), (reg_opts r).
  split; [by eapply registrations_call, list_elem_of_lookup_2|].
  split; [done|]. split; [done|]. split; [done|].
  by apply (dict_get_values _ (key_of n)).
Qed.

Lemma bindparam_key_names_stored_parameter_witness :
  ∃ bind rt' opts',
    Bindparam rt' 2 opts'
    ∈ [Bindparam rt0 2 default_options; Bindparam rt0 3 default_options;
       Bindparam rt0 2 default_options]
    ∧ rt_bindparam rt' "b0" 2 opts' = Return bind
    ∧ dict_get
        (_binds
           (run __init__
              [Bindparam rt0 2 default_options;
               Bindparam rt0 3 default_options;
               Bindparam rt0 2 default_options]).2) "b0" = Some bind.
Proof.
  destruct (bindparam_key_names_stored_parameter
              [Bindparam rt0 2 default_options;
               Bindparam rt0 3 default_options;
               Bindparam rt0 2 default_options] 2 rt0 2 default_options
              "b0" eq_refl)
    as (bind & rt' & opts' & Hin & _ & Hlib & Hget & _).
  - repeat constructor; by intros e.
  - reflexivity.
  - by exists bind, rt', opts'.
Defined.

(** X7: what [get_bindparams] has returned once stays a prefix of what it
    returns after any further calls: stored parameters are neither removed
    nor reordered nor replaced. *)
Theorem get_bindparams_only_grows cs cs' :
  get_bindparams (run __init__ cs).2
  `prefix_of` get_bindparams (run __init__ (cs ++ cs')).2.
Proof.
  pose proof (run_init_inv cs) as [_ Hb1 _ _].
  pose proof (run_init_inv (cs ++ cs')) as [_ Hb2 _ _].
  unfold get_bindparams, dict_values. rewrite Hb1, Hb2.
  rewrite registrations_app, stored_from_app, fmap_app.
  by apply prefix_app_r.
Qed.





(** *** The type-grouped lists *)

Lemma group_from_elem n ty log (e : ref * string) :
  e ∈ group_from n ty log → (e.1, ty) ∈ reg_pair <$> log.
Proof.
  revert n. induction log as [|r0 log IH]; intros n; simpl.
  - by intros ?%elem_of_nil.
  - rewrite elem_of_app, elem_of_cons. intros [He|He]; [|right; eauto].
    left. case_decide as Hty; [|by apply elem_of_nil in He].
    apply list_elem_of_singleton in He as ->. simpl.
    unfold reg_pair. by rewrite Hty.
Qed.

Lemma group_from_NoDup n ty log :
  NoDup (reg_pair <$> log) → NoDup (group_from n ty log).*1.
Proof.
  revert n. induction log as [|r0 log IH]; intros n Hnd; [constructor|].
  rewrite fmap_cons in Hnd. apply NoDup_cons in Hnd as [Hr0 Hnd].
  simpl. rewrite fmap_app. apply NoDup_app.
  split; [|split; [|by apply IH]].
  - case_decide; simpl; [apply NoDup_singleton|constructor].
  - intros x Hx (e & -> & He)%list_elem_of_fmap.
    case_decide as Hty; simpl in Hx; [|by apply elem_of_nil in Hx].
    apply list_elem_of_singleton in Hx. apply group_from_elem in He.
    apply Hr0. unfold reg_pair. by rewrite Hty, <-Hx.
Qed.

Lemma group_from_lookup n ty log i r :
  log !! i = Some r → reg_class r = ty →
  (reg_value r, key_of (n + i)) ∈ group_from n ty log.
Proof.
  revert n i. induction log as [|r0 log IH]; intros n i Hi Hty; [done|].
  simpl. rewrite elem_of_app. destruct i as [|i]; simpl in Hi.
  - injection Hi as ->. left. rewrite decide_True by done.
    rewrite Nat.add_0_r. by apply list_elem_of_singleton.
  - right. rewrite Nat.add_succ_r. by apply (IH (S n)).
Qed.

Lemma bindparam_groups_nonempty rt self v opts :
  (∀ ty grp, _binds_values self !! ty = Some grp → grp ≠ []) →
  ∀ ty grp,
    _binds_values (bindparam rt self v opts).2 !! ty = Some grp → grp ≠ [].
Proof.
  intros Hne ty grp. rewrite bindparam_unfold. simpl.
  case_match; simpl; [by apply Hne|].
  assert (<[py_type (rt_heap rt) v :=
              default [] (_binds_values self !! py_type (rt_heap rt) v)
              ++ [(v, key_of (_binds_count self))]]>
            (_binds_values self) !! ty = Some grp → grp ≠ []) as Hins.
  { destruct (decide (py_type (rt_heap rt) v = ty)) as [<-|Hty].
    - rewrite lookup_insert_eq. intros [= <-]. by intros [_ [=]]%app_eq_nil.
    - rewrite lookup_insert_ne by done. by apply Hne. }
  by case_match.
Qed.

Lemma run_groups_nonempty cs : ∀ self,
  (∀ ty grp, _binds_values self !! ty = Some grp → grp ≠ []) →
  ∀ ty grp, _binds_values (run self cs).2 !! ty = Some grp → grp ≠ [].
Proof.
  induction cs as [|c cs IH]; intros self Hne; [done|].
  rewrite run_cons. cbn [fst snd]. apply IH.
  destruct c as [rt v opts| |name]; simpl; [|done..].
  pose proof (bindparam_groups_nonempty rt self v opts Hne) as Hne'.
  by destruct (bindparam rt self v opts) as [[k|e] s].
Qed.

(** X9: in a context reached from a fresh one, every list of
    [_binds_values] is non-empty and holds, each once, the objects that
    were passed to [bindparam] while they had the class that the list is
    filed under; and every object so passed is in the list of that
    class. *)
Theorem binds_values_grouped_by_class cs :
  (∀ ty grp,
     _binds_values (run __init__ cs).2 !! ty = Some grp →
     grp ≠ [] ∧ NoDup grp.*1
     ∧ Forall (λ e, (e.1, ty) ∈ bound_pairs cs) grp)
  ∧ (∀ v ty, (v, ty) ∈ bound_pairs cs →
     ∃ grp key,
       _binds_values (run __init__ cs).2 !! ty = Some grp
       ∧ (v, key) ∈ grp).
Proof.
  pose proof (run_init_inv cs) as [_ _ Hnd Hgrp].
  split.
  - intros ty grp Hty. specialize (Hgrp ty). rewrite Hty in Hgrp.
    simpl in Hgrp. subst grp. split; [|split].
    + apply (run_groups_nonempty cs __init__) with ty; [|done].
      intros ty' grp'. simpl. by rewrite lookup_empty.
    + by apply group_from_NoDup.
    + apply Forall_forall. intros e He.
      by apply registrations_init_elem, (group_from_elem 0).
  - intros v ty Hv. apply registrations_init_elem in Hv.
    destruct (pair_lookup _ v ty Hv) as (n & r & Hn & <- & Hc).
    pose proof (group_from_lookup 0 ty _ n r Hn Hc) as Hin.
    rewrite <-Hgrp in Hin.
    destruct (_binds_values (run __init__ cs).2 !! ty) as [grp|];
      simpl in Hin.
    + by exists grp, (key_of (0 + n)).
    + by apply elem_of_nil in Hin.
Qed.

(** *** The two allocators do not interfere *)

Lemma bindparam_same_registry rt self1 self2 v opts :
  _binds_values self1 = _binds_values self2 →
  _binds_count self1 = _binds_count self2 →
  _binds self1 = _binds self2 →
  (bindparam rt self1 v opts).1 = (bindparam rt self2 v opts).1
  ∧ _binds_values (bindparam rt self1 v opts).2
    = _binds_values (bindparam rt self2 v opts).2
  ∧ _binds_count (bindparam rt self1 v opts).2
    = _binds_count (bindparam rt self2 v opts).2
  ∧ _binds (bindparam rt self1 v opts).2
    = _binds (bindparam rt self2 v opts).2.
Proof.
  intros Hv Hc Hb. rewrite !bindparam_unfold. simpl.
  rewrite Hv, Hc, Hb. by repeat case_match.
Qed.

Lemma run_without_alias cs : ∀ self1 self2,
  _binds_values self1 = _binds_values self2 →
  _binds_count self1 = _binds_count self2 →
  _binds self1 = _binds self2 →
  returned_keys (run self1 cs).1
  = returned_keys (run self2 (filter is_bindparam cs)).1
  ∧ _binds (run self1 cs).2
    = _binds (run self2 (filter is_bindparam cs)).2.
Proof.
  induction cs as [|c cs IH]; intros self1 self2 Hv Hc Hb; [done|].
  rewrite filter_cons. destruct c as [rt v opts| |name]; simpl decide.
  - rewrite decide_True by done. rewrite !run_cons. cbn [fst snd]. simpl.
    destruct (bindparam_same_registry rt self1 self2 v opts Hv Hc Hb)
      as (Hk & Hv' & Hc' & Hb').
    destruct (bindparam rt self1 v opts) as [res1 s1].
    destruct (bindparam rt self2 v opts) as [res2 s2]. simpl in *.
    subst res2. destruct (IH s1 s2 Hv' Hc' Hb') as [Hkeys Hbinds].
    destruct res1 as [k|e]; simpl; (split; [|done]);
      unfold returned_keys in *; simpl; congruence.
  - rewrite decide_False by (simpl; tauto). rewrite run_cons. cbn [fst snd].
    simpl. by apply IH.
  - rewrite decide_False by (simpl; tauto). rewrite run_cons. cbn [fst snd].
    simpl. by apply IH.
Qed.

Lemma run_without_bindparam cs : ∀ self1 self2,
  _aliases self1 = _aliases self2 →
  returned_aliases (run self1 cs).1
  = returned_aliases (run self2 (filter is_alias cs)).1
  ∧ _aliases (run self1 cs).2
    = _aliases (run self2 (filter is_alias cs)).2.
Proof.
  induction cs as [|c cs IH]; intros self1 self2 Hal; [done|].
  rewrite filter_cons. destruct c as [rt v opts| |name]; simpl decide.
  - rewrite decide_False by (simpl; tauto). rewrite run_cons. cbn [fst snd].
    simpl. pose proof (bindparam_aliases rt self1 v opts) as Hal'.
    destruct (bindparam rt self1 v opts) as [[k|e] s1]; simpl in *;
      apply IH; congruence.
  - rewrite decide_False by (simpl; tauto). rewrite run_cons. cbn [fst snd].
    simpl. by apply IH.
  - rewrite decide_True by done. rewrite !run_cons. cbn [fst snd].
    unfold returned_aliases. simpl. rewrite Hal.
    edestruct (IH (alias self1 name).2 (alias self2 name).2) as [Hr Hs].
    { simpl. by rewrite Hal. }
    unfold returned_aliases in Hr. simpl in Hr. rewrite Hal in Hr.
    split; [by f_equal|]. simpl in Hs. by rewrite Hal in Hs.
Qed.

(** X10: the calls of [alias] have no effect on the registry and the calls
    of [bindparam] none on the aliases: the keys returned and the
    parameters stored are those of the sequence with the other calls left
    out, and so are the aliases returned and the alias set. *)
Theorem registry_and_aliases_independent cs :
  returned_keys (run __init__ cs).1
  = returned_keys (run __init__ (filter is_bindparam cs)).1
  ∧ get_bindparams (run __init__ cs).2
    = get_bindparams (run __init__ (filter is_bindparam cs)).2
  ∧ returned_aliases (run __init__ cs).1
    = returned_aliases (run __init__ (filter is_alias cs)).1
  ∧ _aliases (run __init__ cs).2
    = _aliases (run __init__ (filter is_alias cs)).2.
Proof.
  destruct (run_without_alias cs __init__ __init__) as [Hk Hb];
    [done..|].
  destruct (run_without_bindparam cs __init__ __init__) as [Ha Hs];
    [done|].
  unfold get_bindparams. rewrite Hb. done.
Qed.
